(** * wordle.py: a greedy Wordle solver

    A shallow embedding of [wordle.py] and the properties of its hint
    evaluation, letter statistics, guess selection, candidate filter and
    play loop.

    Python values are modelled as follows.
    - [str] is a list of characters; a one-character string (a letter of a
      hint, an element obtained by iterating over a string) is an [ascii].
    - [dict[str, int]] keyed by letters is a [gmap ascii nat]; [set(word)]
      is a [gset ascii], iterated in the order of [elements].
    - [int] is [Z] where it is supplied by the caller ([guess_limit]) or may
      be negative ([str.find]); counters that only grow from 1 are [nat].
    - A Python exception is a [Raise] result.  The object [self] is mutated
      in place, so a method maps a world to the world it leaves behind
      together with its result; the world survives an exception. *)

From stdpp Require Import gmap strings list fin_maps fin_sets.
From Stdlib Require Import ZArith Ascii.

Open Scope Z_scope.
Open Scope nat_scope.

(** ** Python values *)

Abbreviation str := (list ascii).

(** A string literal as a [str]. *)
Definition lit (s : string) : str := String.list_ascii_of_string s.

Inductive Hint : Type := YES | MOVE | NO.

#[global] Instance Hint_eq_dec : EqDecision Hint.
Proof. solve_decision. Defined.

(** What [respond] returns: one (hint, letter) pair per compared position. *)
Abbreviation Response := (list (Hint * ascii)).

(** ** Exceptions *)

Inductive exn : Type := TypeError | KeyError | IndexError.

Inductive result (A : Type) : Type :=
| Ok (a : A)
| Raise (e : exn).
Arguments Ok {A} a.
Arguments Raise {A} e.

#[global] Instance result_ret : MRet result := λ A a, Ok a.
#[global] Instance result_bind : MBind result := λ A B f r,
  match r with
  | Ok a => f a
  | Raise e => Raise e
  end.

(** [functools.reduce(f, xs)] without an initial value: the first element
    seeds the accumulator, an empty sequence is a [TypeError]. *)
Definition reduce {A : Type} (f : A → A → A) (xs : list A) : result A :=
  match xs with
  | [] => Raise TypeError
  | x :: rest => Ok (foldl f x rest)
  end.

(** A list comprehension [[f(x) for x in xs]] whose element expression may
    raise: elements are evaluated left to right and the first exception
    aborts the comprehension. *)
Fixpoint comprehension {A B : Type} (f : A → result B) (xs : list A)
  : result (list B) :=
  match xs with
  | [] => Ok []
  | x :: rest =>
      y ← f x;
      ys ← comprehension f rest;
      Ok (y :: ys)
  end.

(** A filtering comprehension [[x for x in xs if p(x)]] whose condition may
    raise. *)
Fixpoint comprehension_if {A : Type} (p : A → result bool) (xs : list A)
  : result (list A) :=
  match xs with
  | [] => Ok []
  | x :: rest =>
      b ← p x;
      ys ← comprehension_if p rest;
      Ok (if b : bool then x :: ys else ys)
  end.

(** [s.find(c)] for a one-character [c]: the least index of [c] in [s], or
    [-1]. *)
Fixpoint find (s : str) (c : ascii) : Z :=
  match s with
  | [] => (-1)%Z
  | x :: rest =>
      if decide (x = c) then 0%Z
      else let r := find rest c in
           if (r =? -1)%Z then (-1)%Z else (r + 1)%Z
  end.

(** [s[i]] for a non-negative [i]. *)
Definition index (s : str) (i : nat) : result ascii :=
  match s !! i with
  | Some c => Ok c
  | None => Raise IndexError
  end.

(** [set(word)]. *)
Definition set (word : str) : gset ascii := list_to_set word.

(** ** [letter_frequencies] *)

(** The body of the inner loop: one more word contains [letter]. *)
Definition count_letter (letter : ascii) (frequency_map : gmap ascii nat)
  : gmap ascii nat :=
  match frequency_map !! letter with
  | Some n => <[letter := n + 1]> frequency_map
  | None => <[letter := 1]> frequency_map
  end.

Definition letter_frequencies (words : list str) : gmap ascii nat :=
  foldl (λ frequency_map word, set_fold count_letter frequency_map (set word))
        ∅ words.

(** ** The session object *)

Record Game : Type := mkGame {
  solution : str;
  responses : list Response;
  guess_limit : Z;
  word_bank : list str;
  solved : bool
}.

(** A session as the dataclass builds it from a solution, a guess limit and
    a word bank: no responses yet, not solved. *)
Definition new_game (sol : str) (limit : Z) (bank : list str) : Game :=
  mkGame sol [] limit bank false.

(** What [play] and [display_response] print, one entry per line. *)
Inductive Line : Type :=
| Rendered (response : Response)
| Success (guesses : nat) (limit : Z)
| Failure.

Record World : Type := mkWorld {
  self : Game;
  stdout : list Line
}.

(** A method call: the world afterwards (also when it raises) and the
    result. *)
Definition M (A : Type) : Type := World → World * result A.

#[global] Instance M_ret : MRet M := λ A a w, (w, Ok a).
#[global] Instance M_bind : MBind M := λ A B f m w,
  match m w with
  | (w', Ok a) => f a w'
  | (w', Raise e) => (w', Raise e)
  end.

Definition get : M Game := λ w, (w, Ok (self w)).
Definition lift {A : Type} (r : result A) : M A := λ w, (w, r).
Definition set_word_bank (bank : list str) : M unit := λ w,
  let g := self w in
  (mkWorld (mkGame (solution g) (responses g) (guess_limit g) bank (solved g))
           (stdout w), Ok tt).
Definition append_response (response : Response) : M unit := λ w,
  let g := self w in
  (mkWorld (mkGame (solution g) (responses g ++ [response]) (guess_limit g)
                   (word_bank g) (solved g))
           (stdout w), Ok tt).
Definition set_solved (b : bool) : M unit := λ w,
  let g := self w in
  (mkWorld (mkGame (solution g) (responses g) (guess_limit g) (word_bank g) b)
           (stdout w), Ok tt).
Definition print (line : Line) : M unit := λ w,
  (mkWorld (self w) (stdout w ++ [line]), Ok tt).

(** ** [Game.next_guess] *)

(** The local function [score]: the frequencies of the word's distinct
    letters, added up. *)
Definition score (freqs : gmap ascii nat) (word : str) : result nat :=
  counts ← comprehension
              (λ letter, match freqs !! letter with
                         | Some n => Ok n
                         | None => Raise KeyError
                         end)
              (elements (set word));
  reduce (λ a b, a + b) counts.

(** The reducer of [next_guess]: keeps the left pair only when its score is
    strictly greater. *)
Definition better (a b : str * nat) : str * nat :=
  if decide (b.2 < a.2) then a else b.

Definition next_guess_of (bank : list str) : result str :=
  let freqs := letter_frequencies bank in
  score_map ← comprehension (λ word, s ← score freqs word; Ok (word, s)) bank;
  best ← reduce better score_map;
  Ok best.1.

Definition next_guess : M str :=
  g ← get; lift (next_guess_of (word_bank g)).

(** ** [Game.respond] *)

(** The local function [evaluate]; [sol] is [self.solution]. *)
Definition evaluate (sol : str) (g s : ascii) : Hint * ascii :=
  if decide (g = s) then (YES, g)
  else if (find sol g >? -1)%Z then (MOVE, g)
  else (NO, g).

(** [zip] stops at the end of the shorter string. *)
Definition respond_of (sol guess : str) : Response :=
  (λ gs, evaluate sol gs.1 gs.2) <$> zip guess sol.

Definition respond (guess : str) : M Response :=
  g ← get; mret (respond_of (solution g) guess).

(** ** [Game.display_response] *)

(** The colouring of the letters is left to the terminal; the model records
    which response was rendered. *)
Definition display_response (response : Response) : M unit :=
  print (Rendered response).

(** ** [Game.pare_word_bank] *)

(** The condition of the comprehension chosen by the hint at position [i]. *)
Definition keeps (i : nat) (hint : Hint) (letter : ascii) (word : str)
  : result bool :=
  match hint with
  | YES => c ← index word i; Ok (bool_decide (c = letter))
  | MOVE => Ok (find word letter >? -1)%Z
  | NO => Ok (find word letter =? -1)%Z
  end.

(** One iteration of the loop over [range(len(response))]. *)
Definition pare_at (response : Response) (i : nat) : M unit :=
  match response !! i with
  | None => lift (Raise IndexError)
  | Some (hint, letter) =>
      g ← get;
      bank ← lift (comprehension_if (keeps i hint letter) (word_bank g));
      set_word_bank bank
  end.

(** A [for] loop over a list of indices. *)
Fixpoint for_each {A : Type} (xs : list A) (body : A → M unit) : M unit :=
  match xs with
  | [] => mret tt
  | x :: rest => _ ← body x; for_each rest body
  end.

Definition pare_word_bank (response : Response) : M unit :=
  for_each (seq 0 (length response)) (pare_at response).

(** ** [Game.play] *)

(** How an iteration of the [while] loop ends. *)
Inductive Flow : Type := Break | Continue.

Definition all_yes (response : Response) : result bool :=
  reduce (λ a b, a && b)
         ((λ hl, if decide (hl.1 = YES) then true else false) <$> response).

Definition play_body : M Flow :=
  guess ← next_guess;
  response ← respond guess;
  _ ← display_response response;
  _ ← append_response response;
  b ← lift (all_yes response);
  _ ← set_solved b;
  g ← get;
  if solved g then
    _ ← print (Success (length (responses g)) (guess_limit g)); mret Break
  else if (Z.of_nat (length (responses g)) =? guess_limit g)%Z then
    _ ← print Failure; mret Break
  else
    _ ← pare_word_bank response; mret Continue.

(** The [while] loop, unrolled at most [fuel] times; [None] when [fuel]
    iterations did not reach the end of the loop. *)
Fixpoint play (fuel : nat) (w : World) : option (World * result unit) :=
  if solved (self w) then Some (w, Ok tt)
  else match fuel with
       | 0 => None
       | S fuel' =>
           match play_body w with
           | (w', Ok Break) => Some (w', Ok tt)
           | (w', Ok Continue) => play fuel' w'
           | (w', Raise e) => Some (w', Raise e)
           end
       end.

(** How a session stands: won once [solved] is set, lost when the last
    thing printed is the failure line with the guess limit used up. *)
Inductive State : Type := InProgress | Won | Lost.

Definition state (w : World) : State :=
  if solved (self w) then Won
  else match last (stdout w) with
       | Some Failure =>
           if (Z.of_nat (length (responses (self w))) =? guess_limit (self w))%Z
           then Lost else InProgress
       | _ => InProgress
       end.

Definition start (g : Game) : World := mkWorld g [].

(** ** [system_word_list] *)

(** The character class [[a-z]]. *)
Definition is_lower (c : ascii) : bool :=
  (97 <=? nat_of_ascii c) && (nat_of_ascii c <=? 122).

Definition newline : ascii := "010"%char.

(** [re.match(r'^[a-z]{5}$', w)] as a truth value: five lowercase letters
    from the start, then the end of the string, which [$] also finds just
    before one final newline. *)
Definition matches_word (w : str) : bool :=
  bool_decide (length (take 5 w) = 5)
  && forallb is_lower (take 5 w)
  && (bool_decide (drop 5 w = []) || bool_decide (drop 5 w = [newline])).

(** [str.isspace] on the code points below 256: tab to carriage return,
    the four separators 28 to 31, space, next line and no-break space. *)
Definition isspace (c : ascii) : bool :=
  let n := nat_of_ascii c in
  ((9 <=? n) && (n <=? 13)) || ((28 <=? n) && (n <=? 32))
  || (n =? 133) || (n =? 160).

Fixpoint lstrip (s : str) : str :=
  match s with
  | [] => []
  | c :: rest => if isspace c then lstrip rest else s
  end.

(** [w.strip()]: whitespace removed at both ends. *)
Definition strip (s : str) : str := reverse (lstrip (reverse (lstrip s))).

(** [system_word_list()], as a function of [lines], the list that
    [f.readlines()] returns for the dictionary file. *)
Definition system_word_list (lines : list str) : list str :=
  strip <$> filter (λ w : str, matches_word w = true) lines.

(** [Game(sol)]: every other field takes its default; the word bank is read
    from the dictionary. *)
Definition default_game (sol : str) (lines : list str) : Game :=
  mkGame sol [] 6 (system_word_list lines) false.

(** [main()], with the dictionary's lines and the fuel of the loop. *)
Definition main (fuel : nat) (lines : list str) : option (World * result unit) :=
  play fuel (start (default_game (lit "abbey") lines)).

(** ** Notions used in the statements *)

(** The number of words of [words] in which [c] occurs at least once. *)
Definition words_containing (c : ascii) (words : list str) : nat :=
  length (filter (λ word : str, c ∈ word) words).

(** The session with its word bank replaced. *)
Definition with_bank (w : World) (bank : list str) : World :=
  mkWorld (mkGame (solution (self w)) (responses (self w)) (guess_limit (self w))
                  bank (solved (self w)))
          (stdout w).

(** The loop of [pare_word_bank] from position [i] on, as a function of the
    bank: the bank it leaves and how it ends. *)
Fixpoint pare_from (i : nat) (rest : Response) (bank : list str)
  : list str * result unit :=
  match rest with
  | [] => (bank, Ok tt)
  | (hint, letter) :: rest' =>
      match comprehension_if (keeps i hint letter) bank with
      | Ok bank' => pare_from (S i) rest' bank'
      | Raise e => (bank, Raise e)
      end
  end.

(** What an iteration relies on: the session is not solved, the solution is
    a non-empty word of the bank, and no word of the bank is shorter than
    the solution. *)
Definition well_formed (w : World) : Prop :=
  solved (self w) = false
  ∧ solution (self w) ≠ []
  ∧ solution (self w) ∈ word_bank (self w)
  ∧ ∀ word, word ∈ word_bank (self w) →
            length (solution (self w)) ≤ length word.

(** What the hint at position [i] asks of a word. *)
Definition agrees (i : nat) (hint : Hint) (letter : ascii) (word : str) : Prop :=
  match hint with
  | YES => word !! i = Some letter
  | MOVE => letter ∈ word
  | NO => letter ∉ word
  end.

#[global] Instance agrees_dec i hint letter word :
  Decision (agrees i hint letter word).
Proof. destruct hint; simpl; apply _. Defined.

(** A word agrees with every hint of [rest], whose first hint is for
    position [i]. *)
Fixpoint fits (i : nat) (rest : Response) (word : str) : bool :=
  match rest with
  | [] => true
  | (hint, letter) :: rest' =>
      bool_decide (agrees i hint letter word) && fits (S i) rest' word
  end.

(** The lines that [play] can end its output with. *)
Definition verdict (w : World) : list Line :=
  if solved (self w)
  then [Success (length (responses (self w))) (guess_limit (self w))]
  else [Failure].

(** Membership in a bank written out as a list: [tac] settles each word. *)
Ltac each_word H tac :=
  repeat (apply elem_of_cons in H as [->|H]; [tac|]);
  by apply elem_of_nil in H.

(** ** Examples *)

Example respond_table :
  respond_of (lit "abbey") (lit "table")
  = [(NO, "t"); (MOVE, "a"); (YES, "b"); (NO, "l"); (MOVE, "e")]%char.
Proof. vm_compute. reflexivity. Qed.

Example freq_example :
  letter_frequencies [lit "abbey"; lit "deed"] !! "e"%char = Some 2.
Proof. vm_compute. reflexivity. Qed.

Example next_guess_example :
  next_guess_of [lit "abbey"; lit "table"; lit "chair"; lit "amber"; lit "belay"]
  = Ok (lit "belay").
Proof. vm_compute. reflexivity. Qed.

Example play_example :
  ∃ w, play 6 (start (new_game (lit "abbey") 6
         [lit "abbey"; lit "table"; lit "chair"; lit "amber"; lit "belay"]))
       = Some (w, Ok tt) ∧ state w = Won ∧ length (responses (self w)) = 2
       ∧ last (stdout w) = Some (Success 2 6).
Proof. eexists. vm_compute. done. Qed.

(** ** [str.find] and membership *)

Lemma find_ge (s : str) (c : ascii) : (-1 ≤ find s c)%Z.
Proof.
  induction s as [|x s IH]; simpl; [lia|].
  case_decide; [lia|]. destruct (Z.eqb_spec (find s c) (-1)); lia.
Qed.

Lemma find_minus_one (s : str) (c : ascii) : find s c = (-1)%Z ↔ c ∉ s.
Proof.
  induction s as [|x s IH]; simpl.
  - split; [intros _; apply not_elem_of_nil | done].
  - rewrite not_elem_of_cons. case_decide as Hx.
    + subst x. split; [lia | intros [? _]; done].
    + pose proof (find_ge s c).
      destruct (Z.eqb_spec (find s c) (-1)) as [E|E].
      * split; [intros _; split; [congruence | by apply IH] | done].
      * split; [lia | intros [_ Hn]; apply IH in Hn; done].
Qed.

Lemma find_found (s : str) (c : ascii) : (find s c >? -1)%Z = true ↔ c ∈ s.
Proof.
  pose proof (find_ge s c). pose proof (find_minus_one s c) as Hm.
  rewrite Z.gtb_gt. split.
  - intros Hgt. destruct (decide (c ∈ s)) as [|Hn]; [done|].
    apply Hm in Hn. lia.
  - intros Hin. destruct (decide (find s c = (-1)%Z)) as [E|E]; [|lia].
    apply Hm in E. done.
Qed.

Lemma find_absent (s : str) (c : ascii) : (find s c =? -1)%Z = true ↔ c ∉ s.
Proof. rewrite Z.eqb_eq. apply find_minus_one. Qed.

(** ** [respond] *)

Lemma evaluate_letter (sol : str) (g s : ascii) : (evaluate sol g s).2 = g.
Proof. unfold evaluate. repeat case_match; done. Qed.

Lemma evaluate_YES (sol : str) (g s : ascii) :
  (evaluate sol g s).1 = YES ↔ g = s.
Proof.
  unfold evaluate. case_decide; [naive_solver|].
  destruct (find sol g >? -1)%Z; simpl; naive_solver.
Qed.

Lemma evaluate_NO (sol : str) (g s : ascii) :
  s ∈ sol → (evaluate sol g s).1 = NO ↔ g ∉ sol.
Proof.
  intros Hs. unfold evaluate. case_decide as Hgs.
  - subst. simpl. split; [done | intros Hn; done].
  - destruct (find sol g >? -1)%Z eqn:E; simpl.
    + apply find_found in E. split; [done | intros Hn; done].
    + split; [intros _ Hin; apply find_found in Hin; congruence | done].
Qed.

Lemma evaluate_MOVE (sol : str) (g s : ascii) :
  (evaluate sol g s).1 = MOVE ↔ g ≠ s ∧ g ∈ sol.
Proof.
  unfold evaluate. destruct (decide (g = s)) as [Hgs|Hgs]; simpl.
  { split; [done | by intros [? _]]. }
  destruct (find sol g >? -1)%Z eqn:E; simpl.
  - apply find_found in E. done.
  - split; [done | intros [_ Hin]; apply find_found in Hin; congruence].
Qed.

Lemma respond_of_length (sol guess : str) :
  length (respond_of sol guess) = length guess `min` length sol.
Proof. unfold respond_of. by rewrite length_fmap, length_zip_with. Qed.

Lemma respond_of_lookup (sol guess : str) (i : nat) (g s : ascii) :
  guess !! i = Some g → sol !! i = Some s →
  respond_of sol guess !! i = Some (evaluate sol g s).
Proof.
  intros Hg Hs. unfold respond_of.
  rewrite list_lookup_fmap, lookup_zip_with, Hg, Hs. done.
Qed.

Lemma respond_of_lookup_inv (sol guess : str) (i : nat) (h : Hint) (c : ascii) :
  respond_of sol guess !! i = Some (h, c) →
  ∃ s, guess !! i = Some c ∧ sol !! i = Some s ∧ evaluate sol c s = (h, c).
Proof.
  unfold respond_of. rewrite list_lookup_fmap, lookup_zip_with.
  destruct (guess !! i) as [g|]; [|done]. destruct (sol !! i) as [s|]; [|done].
  simpl. intros [= E]. pose proof (evaluate_letter sol g s) as Hl.
  rewrite E in Hl. simpl in Hl. subst c. eauto.
Qed.

Lemma respond_run (guess : str) (w : World) :
  respond guess w = (w, Ok (respond_of (solution (self w)) guess)).
Proof. done. Qed.

(** The rule of [evaluate] at every compared position. *)
Lemma respond_of_rule (sol guess : str) (i : nat) (g s : ascii) :
  guess !! i = Some g → sol !! i = Some s →
  ∃ h, respond_of sol guess !! i = Some (h, g)
       ∧ (h = YES ↔ g = s)
       ∧ (h = NO ↔ g ∉ sol)
       ∧ (h = MOVE ↔ g ≠ s ∧ g ∈ sol).
Proof.
  intros Hg Hs. exists (evaluate sol g s).1.
  rewrite (respond_of_lookup _ _ _ _ _ Hg Hs).
  split; [by rewrite <- (evaluate_letter sol g s) at 3; destruct (evaluate sol g s)|].
  split; [apply evaluate_YES|]. split; [|apply evaluate_MOVE].
  apply evaluate_NO. by eapply list_elem_of_lookup_2.
Qed.

(** ** [letter_frequencies] counts words, not occurrences *)

Lemma count_letter_lookup (letter c : ascii) (m : gmap ascii nat) :
  count_letter letter m !! c
  = if decide (c = letter) then Some (S (default 0 (m !! c))) else m !! c.
Proof.
  unfold count_letter. case_decide as Hc.
  - subst c. destruct (m !! letter) as [n|] eqn:E; rewrite lookup_insert_eq;
      simpl; f_equal; lia.
  - destruct (m !! letter); by rewrite lookup_insert_ne.
Qed.

(** The inner loop over [set(word)], whatever order the set is iterated in. *)
Lemma count_word_lookup (X : gset ascii) (c : ascii) (m : gmap ascii nat) :
  set_fold count_letter m X !! c
  = if decide (c ∈ X) then Some (S (default 0 (m !! c))) else m !! c.
Proof.
  revert X.
  apply (set_fold_ind_L
           (λ r (X : gset ascii),
              r !! c = if decide (c ∈ X) then Some (S (default 0 (m !! c)))
                       else m !! c)).
  - by rewrite decide_False by set_solver.
  - intros x X r Hx IH. rewrite count_letter_lookup.
    destruct (decide (c = x)) as [->|Hne].
    + rewrite IH, decide_False by done. rewrite decide_True by set_solver. done.
    + rewrite IH. destruct (decide (c ∈ X)) as [Hc|Hc].
      * rewrite decide_True; [done|]. apply elem_of_union. by right.
      * rewrite decide_False; [done|].
        rewrite elem_of_union, elem_of_singleton. by intros [?|?].
Qed.

Lemma words_containing_cons (c : ascii) (word : str) (words : list str) :
  words_containing c (word :: words)
  = (if decide (c ∈ word) then 1 else 0) + words_containing c words.
Proof.
  unfold words_containing. rewrite filter_cons. by case_decide.
Qed.

Lemma letter_frequencies_from (words : list str) (m : gmap ascii nat) (c : ascii) :
  foldl (λ frequency_map word, set_fold count_letter frequency_map (set word))
        m words !! c
  = if decide (words_containing c words = 0) then m !! c
    else Some (default 0 (m !! c) + words_containing c words).
Proof.
  revert m. induction words as [|word words IH]; intros m; [done|].
  simpl. rewrite IH, count_word_lookup, words_containing_cons. unfold set.
  destruct (decide (c ∈ (list_to_set word : gset ascii))) as [Hs|Hs];
    rewrite elem_of_list_to_set in Hs;
    destruct (decide (c ∈ word)) as [Hin|Hin]; try done; simpl.
  destruct (decide (1 + words_containing c words = 0)); [lia|].
  destruct (decide (words_containing c words = 0)) as [Hz|Hz];
    [rewrite Hz|]; simpl; f_equal; lia.
Qed.

Lemma letter_frequencies_lookup (words : list str) (c : ascii) :
  letter_frequencies words !! c
  = if decide (words_containing c words = 0) then None
    else Some (words_containing c words).
Proof.
  unfold letter_frequencies. rewrite letter_frequencies_from, lookup_empty.
  by case_decide.
Qed.

Lemma words_containing_pos (c : ascii) (word : str) (words : list str) :
  word ∈ words → c ∈ word → 0 < words_containing c words.
Proof.
  intros Hw Hc. unfold words_containing.
  assert (word ∈ filter (λ word : str, c ∈ word) words) as Hin
    by (by apply list_elem_of_filter).
  destruct (filter _ words); [by apply elem_of_nil in Hin | simpl; lia].
Qed.

(** C5.  For every list of words, [letter_frequencies] maps each letter to
    the number of words that contain it at least once (a letter no word
    contains has no entry), whatever the repeats within a word; the empty
    list gives the empty map; being a total function, the call never fails.
    For the bank "abbey", "deed" the frequencies are 1 for b, 2 for e and 1
    for d. *)
Theorem letter_frequencies_counts_words :
  (∀ (words : list str) (c : ascii),
     letter_frequencies words !! c
     = if decide (words_containing c words = 0) then None
       else Some (words_containing c words))
  ∧ letter_frequencies [] = ∅
  ∧ letter_frequencies [lit "abbey"; lit "deed"] !! "b"%char = Some 1
  ∧ letter_frequencies [lit "abbey"; lit "deed"] !! "e"%char = Some 2
  ∧ letter_frequencies [lit "abbey"; lit "deed"] !! "d"%char = Some 1.
Proof.
  split; [apply letter_frequencies_lookup|].
  split; [done|].
  rewrite !letter_frequencies_lookup. repeat split; vm_compute; done.
Qed.

(** ** Hint evaluation *)

(** C1, the stated example.  The third letters of "table" and "abbey" are
    both b, so [respond] marks that position [YES]; the sequence absent,
    present, present, absent, present is not what it returns. *)
Lemma respond_table_abbey_not_as_stated :
  let w := start (new_game (lit "abbey") 6 [lit "abbey"]) in
  length (lit "table") = length (solution (self w))
  ∧ lit "table" !! 2 = solution (self w) !! 2
  ∧ respond (lit "table") w
    ≠ (w, Ok [(NO, "t"); (MOVE, "a"); (MOVE, "b"); (NO, "l"); (MOVE, "e")]%char).
Proof. vm_compute. split; [done|]. split; [done|]. intros [= ]. Qed.

(** C1, amended.  For a guess as long as the solution, [respond] returns one
    pair per position, holding the guessed letter and [YES] iff it equals
    the solution's letter there, [NO] iff it occurs nowhere in the solution,
    [MOVE] otherwise; it leaves the session as it was.  For the solution
    "abbey" and the guess "table" the hints are absent, present, exact,
    absent, present. *)
Theorem respond_marks_positions (w : World) (guess : str) :
  length guess = length (solution (self w)) →
  ∃ response,
    respond guess w = (w, Ok response)
    ∧ length response = length guess
    ∧ (∀ i g s, guess !! i = Some g → solution (self w) !! i = Some s →
         ∃ h, response !! i = Some (h, g)
              ∧ (h = YES ↔ g = s)
              ∧ (h = NO ↔ g ∉ solution (self w))
              ∧ (h = MOVE ↔ g ≠ s ∧ g ∈ solution (self w)))
    ∧ (solution (self w) = lit "abbey" → guess = lit "table" →
       response
       = [(NO, "t"); (MOVE, "a"); (YES, "b"); (NO, "l"); (MOVE, "e")]%char).
Proof.
  intros Hlen. exists (respond_of (solution (self w)) guess).
  split; [apply respond_run|]. split; [rewrite respond_of_length; lia|].
  split; [intros i g s; apply respond_of_rule|].
  intros -> ->. vm_compute. done.
Qed.

Lemma respond_marks_positions_witness :
  ∃ response,
    respond (lit "table") (start (new_game (lit "abbey") 6 [lit "abbey"]))
    = (start (new_game (lit "abbey") 6 [lit "abbey"]), Ok response)
    ∧ response
      = [(NO, "t"); (MOVE, "a"); (YES, "b"); (NO, "l"); (MOVE, "e")]%char.
Proof.
  destruct (respond_marks_positions
              (start (new_game (lit "abbey") 6 [lit "abbey"])) (lit "table"))
    as (response & Hrun & _ & _ & Hex); [reflexivity|].
  exists response. split; [exact Hrun | apply Hex; reflexivity].
Defined.

(** C4, as stated.  A two-letter guess against a three-letter solution does
    not fail: [respond] returns the hints of the first two positions. *)
Lemma respond_shorter_guess_returns :
  let w := start (new_game (lit "abc") 6 [lit "abc"]) in
  length (lit "ab") ≠ length (solution (self w))
  ∧ respond (lit "ab") w = (w, Ok [(YES, "a"); (YES, "b")]%char)
  ∧ ∀ e, respond (lit "ab") w ≠ (w, Raise e).
Proof. vm_compute. split; [lia|]. split; [done|]. intros e [= ]. Qed.

(** C4, amended.  Whatever the lengths of the guess and the solution, and so
    also when they differ, [respond] raises nothing: it returns the hints of
    the positions both strings have, as many as the shorter one is long,
    each marked by the rule of [evaluate]. *)
Theorem respond_truncates (w : World) (guess : str) :
  ∃ response,
    respond guess w = (w, Ok response)
    ∧ length response = length guess `min` length (solution (self w))
    ∧ (∀ i g s, guess !! i = Some g → solution (self w) !! i = Some s →
         ∃ h, response !! i = Some (h, g)
              ∧ (h = YES ↔ g = s)
              ∧ (h = NO ↔ g ∉ solution (self w))
              ∧ (h = MOVE ↔ g ≠ s ∧ g ∈ solution (self w))).
Proof.
  exists (respond_of (solution (self w)) guess).
  split; [apply respond_run|]. split; [apply respond_of_length|].
  intros i g s. apply respond_of_rule.
Qed.

(** ** The candidate filter *)

Lemma with_bank_same (w : World) : with_bank w (word_bank (self w)) = w.
Proof. by destruct w as [[] ?]. Qed.

Lemma with_bank_twice (w : World) (b1 b2 : list str) :
  with_bank (with_bank w b1) b2 = with_bank w b2.
Proof. done. Qed.

Lemma pare_loop_from (pre rest : Response) (w : World) :
  for_each (seq (length pre) (length rest)) (pare_at (pre ++ rest)) w
  = (with_bank w (pare_from (length pre) rest (word_bank (self w))).1,
     (pare_from (length pre) rest (word_bank (self w))).2).
Proof.
  revert pre w. induction rest as [|[hint letter] rest IH]; intros pre w.
  - simpl. by rewrite with_bank_same.
  - simpl. unfold mbind at 1, M_bind. unfold pare_at at 1.
    rewrite lookup_app_r, Nat.sub_diag by done. simpl.
    unfold mbind at 1, M_bind, get. unfold mbind at 1, M_bind, lift.
    destruct (comprehension_if (keeps (length pre) hint letter)
                (word_bank (self w))) as [bank'|e] eqn:E.
    + unfold set_word_bank. fold (with_bank w bank').
      specialize (IH (pre ++ [(hint, letter)]) (with_bank w bank')).
      rewrite length_app, Nat.add_1_r, <- app_assoc in IH. simpl in IH.
      rewrite IH. by rewrite with_bank_twice.
    + simpl. by rewrite with_bank_same.
Qed.

Lemma pare_word_bank_run (response : Response) (w : World) :
  pare_word_bank response w
  = (with_bank w (pare_from 0 response (word_bank (self w))).1,
     (pare_from 0 response (word_bank (self w))).2).
Proof. apply (pare_loop_from [] response w). Qed.

(** *** Filtering comprehensions *)

Section filtering.
Context {A : Type} (p : A → result bool).

Lemma comprehension_if_sublist (xs ys : list A) :
  comprehension_if p xs = Ok ys → ys `sublist_of` xs.
Proof.
  revert ys. induction xs as [|x xs IH]; intros ys; simpl.
  - intros [= <-]. constructor.
  - destruct (p x) as [b|e]; simpl; [|done].
    destruct (comprehension_if p xs) as [zs|e]; simpl; [|done].
    intros [= <-]. destruct b; [apply sublist_skip | apply sublist_cons]; eauto.
Qed.

Lemma comprehension_if_passed (xs ys : list A) :
  comprehension_if p xs = Ok ys → ∀ y, y ∈ ys → p y = Ok true.
Proof.
  revert ys. induction xs as [|x xs IH]; intros ys; simpl.
  - intros [= <-] y Hy. by apply elem_of_nil in Hy.
  - destruct (p x) as [b|e] eqn:Hp; simpl; [|done].
    destruct (comprehension_if p xs) as [zs|e]; simpl; [|done].
    intros [= <-] y Hy. destruct b; [|by eapply IH].
    apply elem_of_cons in Hy as [->|Hy]; [done | by eapply IH].
Qed.

Lemma comprehension_if_keeps (xs ys : list A) (x : A) :
  comprehension_if p xs = Ok ys → x ∈ xs → p x = Ok true → x ∈ ys.
Proof.
  revert ys. induction xs as [|x' xs IH]; intros ys; simpl.
  - intros _ Hx. by apply elem_of_nil in Hx.
  - destruct (p x') as [b|e] eqn:Hp; simpl; [|done].
    destruct (comprehension_if p xs) as [zs|e]; simpl; [|done].
    intros [= <-] Hx Hpx. apply elem_of_cons in Hx as [->|Hx].
    + rewrite Hpx in Hp. injection Hp as <-. apply list_elem_of_here.
    + destruct b; [apply list_elem_of_further|]; by eapply IH.
Qed.

Lemma comprehension_if_all (xs : list A) :
  (∀ x, x ∈ xs → p x = Ok true) → comprehension_if p xs = Ok xs.
Proof.
  induction xs as [|x xs IH]; intros Hall; simpl; [done|].
  rewrite (Hall x) by apply list_elem_of_here. simpl.
  rewrite IH; [done|]. intros y Hy. apply Hall. by apply list_elem_of_further.
Qed.

Lemma comprehension_if_total (xs : list A) :
  (∀ x, x ∈ xs → ∃ b, p x = Ok b) → ∃ ys, comprehension_if p xs = Ok ys.
Proof.
  induction xs as [|x xs IH]; intros Hall; simpl; [eauto|].
  destruct (Hall x) as [b ->]; [apply list_elem_of_here|]. simpl.
  destruct IH as [ys ->]; [|simpl; eauto].
  intros y Hy. apply Hall. by apply list_elem_of_further.
Qed.

End filtering.

(** *** The loop over the positions *)

Lemma pare_from_sublist (rest : Response) (i : nat) (bank : list str) :
  (pare_from i rest bank).1 `sublist_of` bank.
Proof.
  revert i bank. induction rest as [|[hint letter] rest IH]; intros i bank; simpl.
  - done.
  - destruct (comprehension_if (keeps i hint letter) bank) as [bank'|e] eqn:E;
      [|done].
    etrans; [apply IH | by eapply comprehension_if_sublist].
Qed.

Lemma pare_from_again (rest : Response) (i : nat) (bank : list str) :
  pare_from i rest (pare_from i rest bank).1 = pare_from i rest bank.
Proof.
  revert i bank. induction rest as [|[hint letter] rest IH]; intros i bank; simpl.
  - done.
  - destruct (comprehension_if (keeps i hint letter) bank) as [bank'|e] eqn:E.
    + rewrite comprehension_if_all; [apply IH|].
      intros word Hword. eapply comprehension_if_passed; [exact E|].
      eapply elem_of_sublist; [exact Hword | apply pare_from_sublist].
    + simpl. by rewrite E.
Qed.

Lemma pare_from_keeps (rest : Response) (i : nat) (bank : list str) (word : str) :
  (∀ k hint letter, rest !! k = Some (hint, letter) →
                    keeps (i + k) hint letter word = Ok true) →
  word ∈ bank → word ∈ (pare_from i rest bank).1.
Proof.
  revert i bank. induction rest as [|[hint letter] rest IH]; intros i bank Hall Hin;
    simpl; [done|].
  destruct (comprehension_if (keeps i hint letter) bank) as [bank'|e] eqn:E;
    [|done].
  apply IH.
  - intros k h l Hk. replace (S i + k) with (i + S k) by lia. by apply Hall.
  - eapply comprehension_if_keeps; [exact E | exact Hin |].
    specialize (Hall 0 hint letter eq_refl). by rewrite Nat.add_0_r in Hall.
Qed.

Lemma pare_from_returns (rest : Response) (i : nat) (bank : list str) :
  (∀ word, word ∈ bank → i + length rest ≤ length word) →
  (pare_from i rest bank).2 = Ok tt.
Proof.
  revert i bank. induction rest as [|[hint letter] rest IH]; intros i bank Hlen;
    simpl; [done|].
  destruct (comprehension_if_total (keeps i hint letter) bank) as [bank' E].
  { intros word Hword. specialize (Hlen word Hword). simpl in Hlen.
    destruct hint; simpl; eauto. unfold index.
    destruct (lookup_lt_is_Some_2 word i) as [c ->]; [lia|]. simpl. eauto. }
  rewrite E. apply IH. intros word Hword. simpl in Hlen.
  assert (word ∈ bank) as Hb
    by (eapply elem_of_sublist; [done | by eapply comprehension_if_sublist]).
  specialize (Hlen word Hb). lia.
Qed.

Lemma keeps_solution (sol guess : str) (k : nat) (hint : Hint) (letter : ascii) :
  respond_of sol guess !! k = Some (hint, letter) →
  keeps k hint letter sol = Ok true.
Proof.
  intros Hk. apply respond_of_lookup_inv in Hk as (s & Hg & Hs & He).
  assert ((evaluate sol letter s).1 = hint) as Hh by (by rewrite He).
  destruct hint; simpl.
  - apply evaluate_YES in Hh as ->. unfold index. rewrite Hs. simpl.
    by rewrite bool_decide_eq_true_2.
  - apply evaluate_MOVE in Hh as [_ Hin]. f_equal. by apply find_found.
  - apply evaluate_NO in Hh; [|by eapply list_elem_of_lookup_2].
    f_equal. by apply find_absent.
Qed.

(** C6.  Whatever the bank and the hint sequence, every word of the bank
    that [pare_word_bank] leaves in the session (also when it stops on an
    [IndexError]) was in the bank before: the filter adds no candidate. *)
Theorem pare_word_bank_subset (response : Response) (w : World) :
  word_bank (self (pare_word_bank response w).1) ⊆ word_bank (self w).
Proof.
  rewrite pare_word_bank_run. simpl.
  apply sublist_subseteq, pare_from_sublist.
Qed.


(** C9.  Paring an already pared bank with the same hint sequence changes
    nothing: the bank is the same, and so are the rest of the session and
    the way the call ends. *)
Theorem pare_word_bank_idempotent (response : Response) (w : World) :
  let once := pare_word_bank response w in
  let twice := pare_word_bank response once.1 in
  word_bank (self twice.1) = word_bank (self once.1) ∧ twice = once.
Proof.
  assert (pare_word_bank response (pare_word_bank response w).1
          = pare_word_bank response w) as Heq.
  { rewrite !pare_word_bank_run. simpl.
    by rewrite pare_from_again, with_bank_twice. }
  simpl. by rewrite Heq.
Qed.

(** C7.  When the bank contains the solution, paring it with the hints that
    [respond] gives for a guess (of the solution's length or of any other)
    leaves a bank that still contains the solution; and when no word of the
    bank is shorter than the solution the call returns normally. *)
Theorem pare_word_bank_keeps_solution (w : World) (guess : str) :
  solution (self w) ∈ word_bank (self w) →
  ∃ response,
    respond guess w = (w, Ok response)
    ∧ let after := pare_word_bank response w in
      solution (self after.1) ∈ word_bank (self after.1)
      ∧ ((∀ word, word ∈ word_bank (self w) →
                  length (solution (self w)) ≤ length word) →
         after.2 = Ok tt).
Proof.
  intros Hsol. exists (respond_of (solution (self w)) guess).
  split; [apply respond_run|]. rewrite pare_word_bank_run. simpl. split.
  - apply pare_from_keeps; [|done].
    intros k hint letter Hk. by eapply keeps_solution.
  - intros Hlen. apply pare_from_returns. intros word Hword.
    rewrite respond_of_length. specialize (Hlen word Hword). simpl. lia.
Qed.

Lemma pare_word_bank_keeps_solution_witness :
  let w := start (new_game (lit "abbey") 6
                    [lit "abbey"; lit "table"; lit "amber"]) in
  ∃ response,
    respond (lit "table") w = (w, Ok response)
    ∧ solution (self (pare_word_bank response w).1)
      ∈ word_bank (self (pare_word_bank response w).1)
    ∧ (pare_word_bank response w).2 = Ok tt.
Proof.
  destruct (pare_word_bank_keeps_solution
              (start (new_game (lit "abbey") 6
                        [lit "abbey"; lit "table"; lit "amber"]))
              (lit "table"))
    as (response & Hrun & Hin & Hret).
  - simpl. apply list_elem_of_here.
  - exists response. split; [exact Hrun|]. split; [exact Hin|].
    apply Hret. intros word Hword. simpl in Hword.
    each_word Hword ltac:(vm_compute; lia).
Defined.

(** ** Guess selection *)

Lemma comprehension_Forall2 {A B : Type} (f : A → result B) (xs : list A) (ys : list B) :
  comprehension f xs = Ok ys ↔ Forall2 (λ x y, f x = Ok y) xs ys.
Proof.
  revert ys. induction xs as [|x xs IH]; intros ys; simpl.
  - split; [intros [= <-]; constructor | by inversion 1].
  - destruct (f x) as [y|e] eqn:Hf; simpl.
    + destruct (comprehension f xs) as [zs|e] eqn:Hc; simpl.
      * split.
        -- intros [= <-]. constructor; [done | by apply IH].
        -- inversion 1 as [|? y' ? zs' Hy Hzs]; subst.
           apply IH in Hzs. congruence.
      * split; [done|]. inversion 1 as [|? y' ? zs' Hy Hzs]; subst.
        apply IH in Hzs. done.
    + split; [done|]. inversion 1; subst. congruence.
Qed.

Lemma comprehension_total {A B : Type} (f : A → result B) (xs : list A) :
  (∀ x, x ∈ xs → ∃ y, f x = Ok y) → ∃ ys, comprehension f xs = Ok ys.
Proof.
  induction xs as [|x xs IH]; intros Hall; simpl; [eauto|].
  destruct (Hall x) as [y ->]; [apply list_elem_of_here|]. simpl.
  destruct IH as [ys ->]; [|simpl; eauto].
  intros z Hz. apply Hall. by apply list_elem_of_further.
Qed.

(** A word of the bank has all its letters in the bank's frequency map, so
    its score is defined as soon as it has a letter at all. *)
Lemma score_defined (bank : list str) (word : str) :
  word ∈ bank → word ≠ [] → ∃ s, score (letter_frequencies bank) word = Ok s.
Proof.
  intros Hin Hne. unfold score.
  destruct (comprehension_total
              (λ letter, match letter_frequencies bank !! letter with
                         | Some n => Ok n
                         | None => Raise KeyError
                         end)
              (elements (set word))) as [counts Hc].
  { intros c Hc. apply elem_of_elements, elem_of_list_to_set in Hc.
    rewrite letter_frequencies_lookup.
    pose proof (words_containing_pos c word bank Hin Hc).
    rewrite decide_False by lia. eauto. }
  rewrite Hc. simpl.
  destruct counts as [|n counts]; [|simpl; eauto].
  apply comprehension_Forall2, Forall2_length in Hc. simpl in Hc.
  destruct word as [|c word]; [done|].
  assert (c ∈ elements (set (c :: word))) as Hel
    by (apply elem_of_elements, elem_of_list_to_set, list_elem_of_here).
  destruct (elements (set (c :: word))); [by apply elem_of_nil in Hel | done].
Qed.

Lemma better_left (a b : str * nat) : b.2 < a.2 → better a b = a.
Proof. intros H. unfold better. by rewrite decide_True. Qed.

Lemma better_right (a b : str * nat) : ¬ b.2 < a.2 → better a b = b.
Proof. intros H. unfold better. by rewrite decide_False. Qed.

(** The reduction with [better] ends on the last pair of greatest score. *)
Lemma foldl_better (rest : list (str * nat)) (x : str * nat) :
  ∃ i, (x :: rest) !! i = Some (foldl better x rest)
       ∧ ∀ j y, (x :: rest) !! j = Some y →
                y.2 ≤ (foldl better x rest).2
                ∧ (y.2 = (foldl better x rest).2 → j ≤ i).
Proof.
  induction rest as [|z rest IH] using rev_ind.
  - exists 0. split; [done|]. intros [|j] y; simpl; [|done].
    intros [= <-]. split; lia.
  - destruct IH as (i & Hi & Hmax). rewrite foldl_snoc.
    pose proof (lookup_lt_Some _ _ _ Hi) as Hlt.
    assert (∀ j y, (x :: rest ++ [z]) !! j = Some y →
                   (x :: rest) !! j = Some y
                   ∨ (j = length (x :: rest) ∧ y = z)) as Hsplit.
    { intros j y. rewrite app_comm_cons.
      destruct (decide (j < length (x :: rest))) as [Hj|Hj].
      - rewrite lookup_app_l by done. eauto.
      - rewrite lookup_app_r by lia.
        destruct (j - length (x :: rest)) as [|k] eqn:Hk; simpl; [|done].
        intros [= <-]. right. simpl in *. split; [lia | done]. }
    destruct (decide (z.2 < (foldl better x rest).2)) as [Hz|Hz].
    + rewrite better_left by done. exists i. split.
      { rewrite app_comm_cons, lookup_app_l; done. }
      intros j y Hj. apply Hsplit in Hj as [Hj | [-> ->]]; [by apply Hmax|].
      split; lia.
    + rewrite better_right by done. exists (length (x :: rest)). split.
      { rewrite app_comm_cons, lookup_app_r, Nat.sub_diag; done. }
      intros j y Hj. apply Hsplit in Hj as [Hj | [-> ->]].
      * destruct (Hmax j y Hj) as [Hle _].
        apply lookup_lt_Some in Hj. split; lia.
      * split; lia.
Qed.

Lemma next_guess_of_last_maximum (bank : list str) :
  bank ≠ [] →
  (∀ word, word ∈ bank → word ≠ []) →
  ∃ guess s i,
    next_guess_of bank = Ok guess
    ∧ bank !! i = Some guess
    ∧ score (letter_frequencies bank) guess = Ok s
    ∧ ∀ j word, bank !! j = Some word →
        ∃ s', score (letter_frequencies bank) word = Ok s'
              ∧ s' ≤ s ∧ (s' = s → j ≤ i).
Proof.
  intros Hbank Hwords. unfold next_guess_of.
  destruct (comprehension_total
              (λ word, s ← score (letter_frequencies bank) word; Ok (word, s))
              bank) as [score_map Hmap].
  { intros word Hword.
    destruct (score_defined bank word Hword (Hwords word Hword)) as [s ->].
    simpl. eauto. }
  simpl. rewrite Hmap. simpl.
  apply comprehension_Forall2 in Hmap.
  assert (∀ k word p, bank !! k = Some word → score_map !! k = Some p →
            p.1 = word ∧ score (letter_frequencies bank) word = Ok p.2) as Hrel.
  { intros k word p Hk Hp.
    pose proof (Forall2_lookup_lr _ _ _ _ _ _ Hmap Hk Hp) as Hf.
    simpl in Hf.
    destruct (score (letter_frequencies bank) word) as [s|e]; simpl in Hf;
      [|done]. by injection Hf as <-. }
  destruct score_map as [|x rest].
  { apply Forall2_length in Hmap. destruct bank; done. }
  simpl. destruct (foldl_better rest x) as (i & Hi & Hmax).
  destruct (Forall2_lookup_r _ _ _ _ _ Hmap Hi) as (guess & Hg & _).
  destruct (Hrel i guess _ Hg Hi) as [Hfst Hsc].
  exists guess, (foldl better x rest).2, i.
  split; [by rewrite Hfst|]. split; [done|]. split; [done|].
  intros j word Hj.
  destruct (Forall2_lookup_l _ _ _ _ _ Hmap Hj) as (p & Hp & _).
  destruct (Hrel j word p Hj Hp) as [_ Hs].
  exists p.2. split; [done|]. by apply Hmax.
Qed.

Lemma next_guess_run (w : World) :
  next_guess w = (w, next_guess_of (word_bank (self w))).
Proof. done. Qed.

(** C2, as stated.  "least" and "slate" have the same letters and so the
    same score; "least" comes first in the bank, and [next_guess] returns
    "slate". *)
Lemma next_guess_tie_returns_later :
  let w := start (new_game (lit "slate") 6 [lit "least"; lit "slate"]) in
  let freqs := letter_frequencies (word_bank (self w)) in
  word_bank (self w) !! 0 = Some (lit "least")
  ∧ score freqs (lit "least") = Ok 10
  ∧ score freqs (lit "slate") = Ok 10
  ∧ next_guess w = (w, Ok (lit "slate"))
  ∧ lit "slate" ≠ lit "least".
Proof. vm_compute. repeat split; done. Qed.

(** C2, amended.  For a non-empty bank of non-empty words, [next_guess]
    returns a word of the bank whose score is the greatest, and among the
    words of that score the one that comes last in the bank; every word of
    the bank has a score, and the session is left as it was. *)
Theorem next_guess_last_maximum (w : World) :
  word_bank (self w) ≠ [] →
  (∀ word, word ∈ word_bank (self w) → word ≠ []) →
  ∃ guess s i,
    next_guess w = (w, Ok guess)
    ∧ word_bank (self w) !! i = Some guess
    ∧ score (letter_frequencies (word_bank (self w))) guess = Ok s
    ∧ ∀ j word, word_bank (self w) !! j = Some word →
        ∃ s', score (letter_frequencies (word_bank (self w))) word = Ok s'
              ∧ s' ≤ s ∧ (s' = s → j ≤ i).
Proof.
  intros Hbank Hwords.
  destruct (next_guess_of_last_maximum _ Hbank Hwords)
    as (guess & s & i & Hrun & Hrest).
  exists guess, s, i. by rewrite next_guess_run, Hrun.
Qed.

Lemma next_guess_last_maximum_witness :
  let w := start (new_game (lit "slate") 6 [lit "least"; lit "slate"]) in
  ∃ guess s i,
    next_guess w = (w, Ok guess)
    ∧ word_bank (self w) !! i = Some guess
    ∧ score (letter_frequencies (word_bank (self w))) guess = Ok s
    ∧ ∀ j word, word_bank (self w) !! j = Some word →
        ∃ s', score (letter_frequencies (word_bank (self w))) word = Ok s'
              ∧ s' ≤ s ∧ (s' = s → j ≤ i).
Proof.
  apply (next_guess_last_maximum
           (start (new_game (lit "slate") 6 [lit "least"; lit "slate"]))).
  - simpl. discriminate.
  - simpl. intros word Hword.
    each_word Hword ltac:(discriminate).
Defined.

(** ** The play loop *)

Lemma all_yes_defined (response : Response) :
  response ≠ [] → ∃ b, all_yes response = Ok b.
Proof. destruct response; [done|]. intros _. unfold all_yes. simpl. eauto. Qed.

(** One iteration, once the guess is selected and the hints are in. *)
Lemma play_body_run (w : World) (guess : str) (b : bool) :
  next_guess_of (word_bank (self w)) = Ok guess →
  all_yes (respond_of (solution (self w)) guess) = Ok b →
  play_body w
  = let g := self w in
    let response := respond_of (solution g) guess in
    let g' := mkGame (solution g) (responses g ++ [response]) (guess_limit g)
                     (word_bank g) b in
    let out := stdout w ++ [Rendered response] in
    if b then
      (mkWorld g' (out ++ [Success (length (responses g ++ [response]))
                                   (guess_limit g)]), Ok Break)
    else if (Z.of_nat (length (responses g ++ [response])) =? guess_limit g)%Z
    then (mkWorld g' (out ++ [Failure]), Ok Break)
    else match pare_word_bank response (mkWorld g' out) with
         | (w', Ok _) => (w', Ok Continue)
         | (w', Raise e) => (w', Raise e)
         end.
Proof.
  intros Hguess Hall. unfold play_body.
  unfold mbind at 1, M_bind. rewrite next_guess_run, Hguess.
  unfold mbind at 1, M_bind. rewrite respond_run.
  unfold mbind at 1, M_bind. unfold display_response, print. 
  unfold mbind at 1, M_bind. unfold append_response. simpl self. simpl stdout.
  unfold mbind at 1, M_bind. unfold lift. rewrite Hall.
  unfold mbind at 1, M_bind. unfold set_solved. simpl.
  unfold mbind at 1, M_bind. unfold get. simpl.
  destruct b; [done|].
  destruct (Z.of_nat _ =? _)%Z; [done|].
  unfold mbind, M_bind. by destruct (pare_word_bank _ _) as [w' [[]|e]].
Qed.

Lemma play_body_no_guess (w : World) (e : exn) :
  next_guess_of (word_bank (self w)) = Raise e → play_body w = (w, Raise e).
Proof.
  intros Hguess. unfold play_body.
  unfold mbind at 1, M_bind. by rewrite next_guess_run, Hguess.
Qed.

Lemma play_body_no_hints (w : World) (guess : str) (e : exn) :
  next_guess_of (word_bank (self w)) = Ok guess →
  all_yes (respond_of (solution (self w)) guess) = Raise e →
  play_body w
  = let g := self w in
    let response := respond_of (solution g) guess in
    (mkWorld (mkGame (solution g) (responses g ++ [response]) (guess_limit g)
                     (word_bank g) (solved g))
             (stdout w ++ [Rendered response]), Raise e).
Proof.
  intros Hguess Hall. unfold play_body.
  unfold mbind at 1, M_bind. rewrite next_guess_run, Hguess.
  unfold mbind at 1, M_bind. rewrite respond_run.
  unfold mbind at 1, M_bind. unfold display_response, print.
  unfold mbind at 1, M_bind. unfold append_response. simpl self. simpl stdout.
  unfold mbind at 1, M_bind. unfold lift. by rewrite Hall.
Qed.

(** Whatever the session, an iteration adds at most one response and keeps
    the guess limit; when the loop is to go round again it has added exactly
    one, the session is unsolved and the limit is not reached. *)
Lemma play_body_progress (w : World) :
  ∃ w1 r,
    play_body w = (w1, r)
    ∧ guess_limit (self w1) = guess_limit (self w)
    ∧ length (responses (self w1)) ≤ length (responses (self w)) + 1
    ∧ (r = Ok Continue →
       solved (self w1) = false
       ∧ length (responses (self w1)) = length (responses (self w)) + 1
       ∧ Z.of_nat (length (responses (self w1))) ≠ guess_limit (self w)).
Proof.
  destruct (next_guess_of (word_bank (self w))) as [guess|e] eqn:Hguess.
  2:{ rewrite (play_body_no_guess w e Hguess). eexists _, _.
      split; [done|]. split; [done|]. split; [lia | done]. }
  destruct (all_yes (respond_of (solution (self w)) guess)) as [b|e] eqn:Hall.
  2:{ rewrite (play_body_no_hints w guess e Hguess Hall). eexists _, _.
      split; [done|]. simpl. rewrite length_app. simpl.
      split; [done|]. split; [lia | done]. }
  rewrite (play_body_run w guess b Hguess Hall). cbv zeta.
  rewrite length_app. simpl length.
  destruct b.
  { eexists _, _. split; [done|]. simpl. rewrite length_app. simpl.
    split; [done|]. split; [lia | done]. }
  destruct (Z.eqb_spec (Z.of_nat (length (responses (self w)) + 1))
              (guess_limit (self w))) as [Hlast|Hmore].
  { eexists _, _. split; [done|]. simpl. rewrite length_app. simpl.
    split; [done|]. split; [lia | done]. }
  rewrite pare_word_bank_run. simpl.
  destruct (pare_from 0 _ _).2 as [[]|e]; eexists _, _; (split; [done|]);
    simpl; rewrite length_app; simpl; (split; [done|]); (split; [lia|]);
    [intros _; split; [done|]; split; [lia | done] | done].
Qed.

(** The loop cannot run past the guess limit: from a session with [n >= 1]
    guesses left it ends, in one way or another, within [n] iterations. *)
Lemma play_bounded (n : nat) (w : World) :
  1 ≤ n →
  (Z.of_nat (length (responses (self w))) + Z.of_nat n
   = guess_limit (self w))%Z →
  ∃ w' r,
    (∀ fuel, n ≤ fuel → play fuel w = Some (w', r))
    ∧ guess_limit (self w') = guess_limit (self w)
    ∧ (Z.of_nat (length (responses (self w'))) ≤ guess_limit (self w))%Z.
Proof.
  revert w. induction n as [|n IH]; intros w Hn Hleft; [lia|].
  destruct (solved (self w)) eqn:Hsolved.
  { exists w, (Ok tt). split; [|split; [done | lia]].
    intros [|fuel] _; simpl; by rewrite Hsolved. }
  destruct (play_body_progress w) as (w1 & r & Hbody & Hlimit & Hle & Hcont).
  destruct r as [[]|e].
  - exists w1, (Ok tt). split; [|split; [done | lia]].
    intros [|fuel] Hfuel; [lia|]. simpl. by rewrite Hsolved, Hbody.
  - destruct (Hcont eq_refl) as (Hs1 & Hlen1 & Hne1).
    destruct (IH w1) as (w' & r & Hplay & Hlimit' & Hbound); [lia | lia |].
    exists w', r. split; [|split; [congruence | lia]].
    intros [|fuel] Hfuel; [lia|]. simpl. rewrite Hsolved, Hbody.
    apply Hplay. lia.
  - exists w1, (Raise e). split; [|split; [done | lia]].
    intros [|fuel] Hfuel; [lia|]. simpl. by rewrite Hsolved, Hbody.
Qed.

(** C3, as stated.  With the solution "abbey" and the bank "table" the
    first round leaves no candidate; the second call of [next_guess] raises
    [TypeError], [play] does not handle it, and the session is left unsolved
    with one response out of six and no failure line printed. *)
Lemma play_exhausted_bank_raises :
  let w := start (new_game (lit "abbey") 6 [lit "table"]) in
  ∃ w', play 6 w = Some (w', Raise TypeError)
        ∧ word_bank (self w') = []
        ∧ next_guess w' = (w', Raise TypeError)
        ∧ state w' ≠ Lost
        ∧ Failure ∉ stdout w'.
Proof.
  eexists. split; [vm_compute; reflexivity|].
  split; [done|]. split; [done|]. split; [done|].
  intros Hin. repeat (apply elem_of_cons in Hin as [Hin|Hin]; [done|]).
  by apply elem_of_nil in Hin.
Qed.

(** C3, amended.  In an unsolved session whose bank is empty, [next_guess]
    raises [TypeError] (the reduction of an empty score list), and [play],
    which has no handler, ends on that exception on its first iteration:
    nothing is printed and the session is left exactly as it was. *)
Theorem play_empty_bank_raises (w : World) (fuel : nat) :
  word_bank (self w) = [] →
  solved (self w) = false →
  next_guess w = (w, Raise TypeError)
  ∧ play (S fuel) w = Some (w, Raise TypeError).
Proof.
  intros Hbank Hsolved.
  assert (next_guess_of (word_bank (self w)) = Raise TypeError) as Hguess
    by (by rewrite Hbank).
  split; [by rewrite next_guess_run, Hguess|].
  simpl. by rewrite Hsolved, (play_body_no_guess w TypeError Hguess).
Qed.

Lemma play_empty_bank_raises_witness :
  let w := start (new_game (lit "abbey") 6 []) in
  next_guess w = (w, Raise TypeError)
  ∧ play 6 w = Some (w, Raise TypeError).
Proof.
  apply (play_empty_bank_raises (start (new_game (lit "abbey") 6 [])) 5);
    reflexivity.
Defined.

Lemma well_formed_guess (w : World) :
  well_formed w →
  ∃ guess b,
    next_guess_of (word_bank (self w)) = Ok guess
    ∧ all_yes (respond_of (solution (self w)) guess) = Ok b
    ∧ guess ∈ word_bank (self w).
Proof.
  intros (_ & Hne & Hin & Hlen).
  assert (∀ word, word ∈ word_bank (self w) → word ≠ []) as Hwords.
  { intros word Hword ->. specialize (Hlen _ Hword).
    destruct (solution (self w)); [done | simpl in Hlen; lia]. }
  destruct (next_guess_of_last_maximum (word_bank (self w)))
    as (guess & _ & i & Hguess & Hi & _); [by intros E; rewrite E in Hin;
      apply elem_of_nil in Hin | done |].
  assert (guess ∈ word_bank (self w)) as Hg by (by eapply list_elem_of_lookup_2).
  destruct (all_yes_defined (respond_of (solution (self w)) guess)) as [b Hb].
  { intros E. apply (f_equal length) in E.
    rewrite respond_of_length in E. simpl in E.
    specialize (Hlen _ Hg). destruct (solution (self w)); [done|].
    simpl in *. lia. }
  eauto.
Qed.

(** The loop from a well-formed session that has [n >= 1] guesses left. *)
Lemma play_from (n : nat) (w : World) :
  well_formed w →
  1 ≤ n →
  (Z.of_nat (length (responses (self w))) + Z.of_nat n
   = guess_limit (self w))%Z →
  ∃ w',
    (∀ fuel, n ≤ fuel → play fuel w = Some (w', Ok tt))
    ∧ (state w' = Won ∨ state w' = Lost)
    ∧ guess_limit (self w') = guess_limit (self w)
    ∧ length (responses (self w)) < length (responses (self w'))
    ∧ (Z.of_nat (length (responses (self w'))) ≤ guess_limit (self w))%Z.
Proof.
  revert w. induction n as [|n IH]; intros w Hwf Hn Hleft; [lia|].
  destruct (well_formed_guess w Hwf) as (guess & b & Hguess & Hall & Hg).
  pose proof (play_body_run w guess b Hguess Hall) as Hbody.
  destruct Hwf as (Hsolved & Hne & Hin & Hlen).
  cbv zeta in Hbody. rewrite length_app in Hbody. simpl length in Hbody.
  destruct b.
  { eexists. split.
    - intros [|fuel] Hfuel; [lia|]. simpl. rewrite Hsolved, Hbody. done.
    - unfold state. simpl. rewrite length_app. simpl.
      split; [by left|]. split; [done|]. lia. }
  destruct (Z.eqb_spec (Z.of_nat (length (responses (self w)) + 1))
              (guess_limit (self w))) as [Hlast|Hmore].
  { eexists. split.
    - intros [|fuel] Hfuel; [lia|]. simpl. rewrite Hsolved, Hbody. done.
    - unfold state. simpl. rewrite last_snoc, length_app. simpl.
      rewrite (proj2 (Z.eqb_eq _ _) Hlast).
      split; [by right|]. split; [done|]. lia. }
  rewrite pare_word_bank_run in Hbody. simpl in Hbody.
  set (response := respond_of (solution (self w)) guess) in *.
  rewrite pare_from_returns in Hbody.
  2:{ intros word Hword. unfold response. rewrite respond_of_length.
      specialize (Hlen word Hword). simpl. lia. }
  match type of Hbody with _ = (?w1, _) => set (w1' := w1) in * end.
  destruct (IH w1') as (w' & Hplay & Hstate & Hlimit & Hresp & Hbound).
  - split; [done|]. split; [done|]. simpl. split.
    + apply pare_from_keeps; [|done].
      intros k hint letter Hk. by eapply keeps_solution.
    + intros word Hword. apply Hlen.
      eapply elem_of_sublist; [exact Hword | apply pare_from_sublist].
  - lia.
  - simpl. rewrite length_app. simpl. lia.
  - exists w'. split.
    + intros [|fuel] Hfuel; [lia|]. simpl. rewrite Hsolved, Hbody.
      apply Hplay. lia.
    + simpl in Hlimit, Hresp, Hbound. rewrite length_app in Hresp. simpl in Hresp.
      split; [done|]. split; [done|]. lia.
Qed.

(** C8, as stated.  The solution "abc" is in the bank "abc", "xbc", "b" and
    the guess limit is 6, yet the session ends neither won nor lost: the
    first guess "xbc" gives an exact hint at the second position, the
    one-letter word "b" has survived the hint before it, and
    [pare_word_bank] raises [IndexError], which [play] does not handle. *)
Lemma play_short_word_raises :
  let w := start (new_game (lit "abc") 6 [lit "abc"; lit "xbc"; lit "b"]) in
  solution (self w) ∈ word_bank (self w)
  ∧ (1 ≤ guess_limit (self w))%Z
  ∧ responses (self w) = []
  ∧ solved (self w) = false
  ∧ ∃ w',
      (∀ fuel, play (S fuel) w = Some (w', Raise IndexError))
      ∧ state w' = InProgress
      ∧ length (responses (self w')) = 1
      ∧ Failure ∉ stdout w'.
Proof.
  cbv zeta. split; [apply list_elem_of_here|]. split; [simpl; lia|].
  split; [done|]. split; [done|].
  eexists. split; [intros fuel; vm_compute; reflexivity|].
  split; [done|]. split; [done|].
  intros Hin. repeat (apply elem_of_cons in Hin as [Hin|Hin]; [done|]).
  by apply elem_of_nil in Hin.
Qed.

(** C8, amended.  A fresh session (no response yet) whose guess limit is at
    least 1 never loops indefinitely: with any fuel of at least [guess_limit]
    iterations [play] ends, after at most [guess_limit] rounds.  When the
    session is unsolved, its solution is a non-empty word of its bank and no
    word of the bank is shorter than the solution (as in a bank of words of
    one length), [play] returns normally, the session it leaves is won or
    lost, and at least one round was played. *)
Theorem play_terminates (w : World) :
  responses (self w) = [] →
  (1 ≤ guess_limit (self w))%Z →
  ∃ w' r,
    (∀ fuel, Z.to_nat (guess_limit (self w)) ≤ fuel →
             play fuel w = Some (w', r))
    ∧ (Z.of_nat (length (responses (self w'))) ≤ guess_limit (self w))%Z
    ∧ (solved (self w) = false →
       solution (self w) ≠ [] →
       solution (self w) ∈ word_bank (self w) →
       (∀ word, word ∈ word_bank (self w) →
                length (solution (self w)) ≤ length word) →
       r = Ok tt
       ∧ (state w' = Won ∨ state w' = Lost)
       ∧ 1 ≤ length (responses (self w'))).
Proof.
  intros Hresp Hlimit.
  destruct (play_bounded (Z.to_nat (guess_limit (self w))) w)
    as (w' & r & Hplay & _ & Hbound); [lia | rewrite Hresp; simpl; lia |].
  exists w', r. split; [done|]. split; [done|].
  intros Hsolved Hne Hin Hlen.
  destruct (play_from (Z.to_nat (guess_limit (self w))) w)
    as (w2 & Hplay2 & Hstate & _ & Hlt & _);
    [done | lia | rewrite Hresp; simpl; lia |].
  specialize (Hplay _ (Nat.le_refl _)). specialize (Hplay2 _ (Nat.le_refl _)).
  rewrite Hplay in Hplay2. injection Hplay2 as -> ->.
  split; [done|]. split; [done|]. lia.
Qed.

Lemma play_terminates_witness :
  let w := start (new_game (lit "abbey") 6
                    [lit "abbey"; lit "table"; lit "chair"; lit "amber";
                     lit "belay"]) in
  ∃ w',
    (∀ fuel, 6 ≤ fuel → play fuel w = Some (w', Ok tt))
    ∧ (state w' = Won ∨ state w' = Lost)
    ∧ 1 ≤ length (responses (self w')) ≤ 6.
Proof.
  destruct (play_terminates
              (start (new_game (lit "abbey") 6
                        [lit "abbey"; lit "table"; lit "chair"; lit "amber";
                         lit "belay"])))
    as (w' & r & Hplay & Hbound & Hend).
  - reflexivity.
  - simpl. lia.
  - destruct Hend as (-> & Hstate & Hone).
    + reflexivity.
    + simpl. discriminate.
    + simpl. apply list_elem_of_here.
    + simpl. intros word Hword. each_word Hword ltac:(vm_compute; lia).
    + exists w'. split; [exact Hplay|]. split; [exact Hstate|].
      simpl in Hbound. lia.
Defined.

(** Outside such banks the loop still ends within the limit, but it can end
    on an exception: a bank word shorter than an exact position makes
    [pare_word_bank] raise [IndexError], an empty word makes [score] raise
    [TypeError]. *)
Example play_short_word :
  ∃ w', play 6 (start (new_game (lit "abc") 6 [lit "abc"; lit "xbc"; lit "b"]))
        = Some (w', Raise IndexError)
        ∧ word_bank (self w') = [lit "abc"; lit "b"].
Proof. eexists. vm_compute. done. Qed.

Example play_empty_word :
  play 6 (start (new_game (lit "abc") 6 [lit "abc"; lit ""]))
  = Some (start (new_game (lit "abc") 6 [lit "abc"; lit ""]), Raise TypeError).
Proof. vm_compute. done. Qed.

(** * Further properties *)

(** ** Letter statistics *)

Lemma words_containing_perm (c : ascii) (words1 words2 : list str) :
  words1 ≡ₚ words2 → words_containing c words1 = words_containing c words2.
Proof. intros Hperm. unfold words_containing. by rewrite Hperm. Qed.

Lemma words_containing_app (c : ascii) (words1 words2 : list str) :
  words_containing c (words1 ++ words2)
  = words_containing c words1 + words_containing c words2.
Proof. unfold words_containing. by rewrite filter_app, length_app. Qed.

Lemma words_containing_le (c : ascii) (words : list str) :
  words_containing c words ≤ length words.
Proof. apply length_filter. Qed.

Lemma words_containing_zero (c : ascii) (words : list str) :
  words_containing c words = 0 ↔ ∀ word, word ∈ words → c ∉ word.
Proof.
  split.
  - intros Hz word Hword Hc.
    pose proof (words_containing_pos c word words Hword Hc). lia.
  - intros Hall. unfold words_containing.
    destruct (filter _ words) as [|word rest] eqn:E; [done|].
    assert (word ∈ filter (λ word : str, c ∈ word) words) as Hin
      by (rewrite E; apply list_elem_of_here).
    apply list_elem_of_filter in Hin as [Hc Hword]. by destruct (Hall word Hword).
Qed.

(** X1.  The frequencies do not depend on the order of the words: two lists
    with the same words, each as often, give the same map. *)
Theorem letter_frequencies_permutation (words1 words2 : list str) :
  words1 ≡ₚ words2 → letter_frequencies words1 = letter_frequencies words2.
Proof.
  intros Hperm. apply map_eq. intros c.
  by rewrite !letter_frequencies_lookup, (words_containing_perm c _ _ Hperm).
Qed.

Lemma letter_frequencies_permutation_witness :
  letter_frequencies [lit "abbey"; lit "deed"]
  = letter_frequencies [lit "deed"; lit "abbey"].
Proof.
  apply (letter_frequencies_permutation
           [lit "abbey"; lit "deed"] [lit "deed"; lit "abbey"]).
  apply perm_swap.
Defined.

(** X2.  The keys of the frequency map are exactly the letters that occur in
    some word, and no count is 0 or exceeds the number of words. *)
Theorem letter_frequencies_keys (words : list str) (c : ascii) :
  (is_Some (letter_frequencies words !! c) ↔ ∃ word, word ∈ words ∧ c ∈ word)
  ∧ ∀ n, letter_frequencies words !! c = Some n → 1 ≤ n ≤ length words.
Proof.
  rewrite letter_frequencies_lookup.
  pose proof (words_containing_le c words) as Hle.
  pose proof (words_containing_zero c words) as Hzero.
  destruct (decide (words_containing c words = 0)) as [Hz|Hz].
  - split; [|done]. split; [by intros [? ?]|].
    intros (word & Hword & Hc). by destruct (proj1 Hzero Hz word Hword).
  - split; [|intros n [= <-]; lia]. split; [|eauto].
    intros _. unfold words_containing in Hz.
    destruct (filter (λ word : str, c ∈ word) words) as [|word rest] eqn:E;
      [done|].
    assert (word ∈ filter (λ word : str, c ∈ word) words) as Hin
      by (rewrite E; apply list_elem_of_here).
    apply list_elem_of_filter in Hin as [Hc Hword]. eauto.
Qed.

(** X3.  The frequencies of two lists put together are the sums of their
    frequencies, letter by letter. *)
Theorem letter_frequencies_app (words1 words2 : list str) :
  letter_frequencies (words1 ++ words2)
  = union_with (λ a b, Some (a + b))
      (letter_frequencies words1) (letter_frequencies words2).
Proof.
  apply map_eq. intros c.
  rewrite lookup_union_with, !letter_frequencies_lookup, words_containing_app.
  destruct (decide (words_containing c words1 = 0)) as [H1|H1];
    destruct (decide (words_containing c words2 = 0)) as [H2|H2];
    simpl; case_decide; try lia; f_equal; lia.
Qed.

(** ** Scores and the errors of guess selection *)

(** A comprehension raises what its first failing element raises; when all
    failures are of one kind, that kind is what it raises. *)
Lemma comprehension_raises {A B : Type} (f : A → result B) (xs : list A) (e : exn) :
  (∀ x, x ∈ xs → (∃ y, f x = Ok y) ∨ f x = Raise e) →
  (∃ x, x ∈ xs ∧ f x = Raise e) →
  comprehension f xs = Raise e.
Proof.
  induction xs as [|x xs IH]; intros Hall (x0 & Hin & Hx0).
  - by apply elem_of_nil in Hin.
  - simpl. destruct (Hall x) as [[y Hy]|Hr]; [apply list_elem_of_here | |].
    + rewrite Hy. simpl. rewrite IH; [done | |].
      * intros z Hz. apply Hall. by apply list_elem_of_further.
      * apply elem_of_cons in Hin as [->|Hin]; [congruence | eauto].
    + by rewrite Hr.
Qed.

Lemma comprehension_fmap {A B : Type} (f : A → result B) (g : A → B) (xs : list A) :
  (∀ x, x ∈ xs → f x = Ok (g x)) → comprehension f xs = Ok (g <$> xs).
Proof.
  induction xs as [|x xs IH]; intros Hall; simpl; [done|].
  rewrite (Hall x) by apply list_elem_of_here. simpl.
  rewrite IH; [done|]. intros z Hz. apply Hall. by apply list_elem_of_further.
Qed.

Lemma foldl_add (x : nat) (l : list nat) :
  foldl (λ a b, a + b) x l = x + sum_list l.
Proof.
  revert x. induction l as [|y l IH]; intros x; simpl; [lia|].
  rewrite IH. lia.
Qed.

Lemma elements_set_nil (word : str) : elements (set word) = [] ↔ word = [].
Proof.
  unfold set. split.
  - intros He. destruct word as [|c word]; [done|].
    assert (c ∈ elements (list_to_set (c :: word) : gset ascii)) as Hc
      by (apply elem_of_elements, elem_of_list_to_set, list_elem_of_here).
    rewrite He in Hc. by apply elem_of_nil in Hc.
  - intros ->. simpl. apply elements_empty.
Qed.

Lemma elem_of_elements_set (word : str) (c : ascii) :
  c ∈ elements (set word) ↔ c ∈ word.
Proof. unfold set. by rewrite elem_of_elements, elem_of_list_to_set. Qed.

Lemma score_empty_word (freqs : gmap ascii nat) :
  score freqs [] = Raise TypeError.
Proof. unfold score. by rewrite (proj2 (elements_set_nil []) eq_refl). Qed.

(** X4.  What [score] does with any frequency map: for the empty word it
    raises [TypeError]; for a word with a letter the map lacks it raises
    [KeyError]; otherwise it returns the sum of the frequencies of the
    word's distinct letters. *)
Theorem score_cases (freqs : gmap ascii nat) (word : str) :
  (word = [] → score freqs word = Raise TypeError)
  ∧ (word ≠ [] → (∃ c, c ∈ word ∧ freqs !! c = None) →
     score freqs word = Raise KeyError)
  ∧ (word ≠ [] → (∀ c, c ∈ word → is_Some (freqs !! c)) →
     score freqs word
     = Ok (sum_list ((λ c, default 0 (freqs !! c)) <$> elements (set word)))).
Proof.
  split; [|split].
  - intros ->. unfold score. by rewrite (proj2 (elements_set_nil []) eq_refl).
  - intros _ (c & Hc & Hnone). unfold score.
    rewrite (comprehension_raises _ _ KeyError).
    + done.
    + intros x _. destruct (freqs !! x); eauto.
    + exists c. split; [by apply (elem_of_elements_set word c) | by rewrite Hnone].
  - intros Hne Hall. unfold score.
    rewrite (comprehension_fmap _ (λ c, default 0 (freqs !! c))).
    + simpl. destruct (elements (set word)) as [|c cs] eqn:E.
      * apply (proj1 (elements_set_nil word)) in E. by destruct Hne.
      * simpl. by rewrite foldl_add.
    + intros c Hc. apply (proj1 (elem_of_elements_set word c)) in Hc.
      by destruct (Hall c Hc) as [n ->].
Qed.

Lemma score_cases_witness :
  score (letter_frequencies [lit "abbey"; lit "deed"]) (lit "bee") = Ok 3
  ∧ score (letter_frequencies [lit "abbey"; lit "deed"]) (lit "bet")
    = Raise KeyError.
Proof.
  destruct (score_cases (letter_frequencies [lit "abbey"; lit "deed"])
              (lit "bee")) as (_ & _ & Hok).
  destruct (score_cases (letter_frequencies [lit "abbey"; lit "deed"])
              (lit "bet")) as (_ & Hkey & _).
  split.
  - rewrite Hok; [vm_compute; reflexivity | discriminate |].
    intros c Hc. unfold lit in Hc. simpl in Hc.
    each_word Hc ltac:(rewrite letter_frequencies_lookup; vm_compute; eauto).
  - apply Hkey; [discriminate|]. exists "t"%char. split.
    + unfold lit. simpl. do 2 apply list_elem_of_further. apply list_elem_of_here.
    + rewrite letter_frequencies_lookup. vm_compute. reflexivity.
Defined.

Lemma score_in_bank (bank : list str) (word : str) :
  word ∈ bank →
  (∃ s, score (letter_frequencies bank) word = Ok s)
  ∨ score (letter_frequencies bank) word = Raise TypeError.
Proof.
  intros Hin. destruct word as [|c word].
  - right. apply score_empty_word.
  - left. by apply score_defined.
Qed.

Lemma next_guess_of_bad_bank (bank : list str) :
  bank = [] ∨ [] ∈ bank → next_guess_of bank = Raise TypeError.
Proof.
  intros [->|Hin]; [done|]. unfold next_guess_of. simpl.
  rewrite (comprehension_raises _ _ TypeError); [done | |].
  - intros word Hword. destruct (score_in_bank bank word Hword) as [[s ->]| ->];
      simpl; eauto.
  - exists []. split; [done|].
    by rewrite score_empty_word.
Qed.

Lemma next_guess_of_good_bank (bank : list str) :
  bank ≠ [] → [] ∉ bank →
  ∃ guess, next_guess_of bank = Ok guess ∧ guess ∈ bank.
Proof.
  intros Hne Hnil.
  destruct (next_guess_of_last_maximum bank Hne)
    as (guess & _ & i & Hg & Hi & _); [by intros word Hword -> |].
  exists guess. split; [done | by eapply list_elem_of_lookup_2].
Qed.

Lemma next_guess_of_member (bank : list str) (guess : str) :
  next_guess_of bank = Ok guess → guess ∈ bank.
Proof.
  destruct (decide (bank = [])) as [Hb|Hb];
    [by rewrite (next_guess_of_bad_bank bank (or_introl Hb))|].
  destruct (decide ([] ∈ bank)) as [Hn|Hn];
    [by rewrite (next_guess_of_bad_bank bank (or_intror Hn))|].
  destruct (next_guess_of_good_bank bank Hb Hn) as (g & -> & Hin).
  by intros [= <-].
Qed.

(** X5.  [next_guess] can only fail with [TypeError], and it does so exactly
    when the bank is empty or holds an empty word; otherwise it returns a
    word of the bank.  A [KeyError] cannot occur: the frequency map is built
    from the same bank. *)
Theorem next_guess_errors (bank : list str) :
  (next_guess_of bank = Raise TypeError ↔ bank = [] ∨ [] ∈ bank)
  ∧ (∀ e, next_guess_of bank = Raise e → e = TypeError)
  ∧ (∀ guess, next_guess_of bank = Ok guess → guess ∈ bank).
Proof.
  split; [|split; [|apply next_guess_of_member]].
  - split; [|apply next_guess_of_bad_bank].
    destruct (decide (bank = [])) as [Hb|Hb]; [by left|].
    destruct (decide ([] ∈ bank)) as [Hn|Hn]; [by right|].
    by destruct (next_guess_of_good_bank bank Hb Hn) as (g & -> & _).
  - intros e.
    destruct (decide (bank = [])) as [Hb|Hb];
      [rewrite (next_guess_of_bad_bank bank (or_introl Hb)); by intros [= <-]|].
    destruct (decide ([] ∈ bank)) as [Hn|Hn];
      [rewrite (next_guess_of_bad_bank bank (or_intror Hn)); by intros [= <-]|].
    by destruct (next_guess_of_good_bank bank Hb Hn) as (g & -> & _).
Qed.

(** ** Hints and the test for a win *)

Lemma foldl_andb (b : bool) (bs : list bool) :
  foldl (λ a b, a && b) b bs = b && forallb id bs.
Proof.
  revert b. induction bs as [|c bs IH]; intros b; simpl.
  - by rewrite andb_true_r.
  - by rewrite IH, andb_assoc.
Qed.

Lemma forallb_id_fmap {A : Type} (f : A → bool) (l : list A) :
  forallb id (f <$> l) = forallb f l.
Proof. induction l as [|x l IH]; simpl; [done | f_equal; exact IH]. Qed.

Lemma all_yes_forallb (response : Response) :
  response ≠ [] →
  all_yes response = Ok (forallb (λ hl, bool_decide (hl.1 = YES)) response).
Proof.
  destruct response as [|hl response]; [done|]. intros _.
  unfold all_yes. simpl. by rewrite foldl_andb, forallb_id_fmap.
Qed.

Lemma respond_of_nil (sol guess : str) :
  respond_of sol guess = [] ↔ guess = [] ∨ sol = [].
Proof.
  unfold respond_of. destruct guess as [|g guess]; [by split; [left|]|].
  destruct sol as [|s sol]; [by split; [right|]|].
  simpl. split; [done | by intros [?|?]].
Qed.

(** The hints are all exact when the guess and the solution agree as far as
    both go; [S] is the string searched for misplaced letters. *)
Lemma hints_all_exact (S guess sol : str) :
  forallb (λ hl : Hint * ascii, bool_decide (hl.1 = YES))
          ((λ gs, evaluate S gs.1 gs.2) <$> zip guess sol) = true
  ↔ take (length sol) guess = take (length guess) sol.
Proof.
  revert sol. induction guess as [|g guess IH]; intros sol.
  - simpl. by rewrite take_nil.
  - destruct sol as [|s sol]; [done|]. simpl.
    rewrite andb_true_iff, bool_decide_eq_true, evaluate_YES, IH.
    split; [by intros [-> ->] | by intros [= -> ->]].
Qed.

Lemma respond_of_letters (sol guess : str) :
  (λ hl : Hint * ascii, hl.2) <$> respond_of sol guess = take (length sol) guess.
Proof.
  unfold respond_of. generalize sol at 1 as S. intros S. revert sol.
  induction guess as [|g guess IH]; intros sol; [by rewrite take_nil|].
  destruct sol as [|s sol]; [done|]. simpl.
  by rewrite evaluate_letter, IH.
Qed.

(** X6.  The test for a win that [play] makes on the hints of a guess: it
    raises [TypeError] exactly when the guess or the solution is empty, and
    it succeeds exactly when both are non-empty and agree on the positions
    both have.  For a guess of the solution's length that means the guess is
    the solution; a guess that only extends the solution, or is a proper
    beginning of it, passes the test as well. *)
Theorem win_test (sol guess : str) :
  (all_yes (respond_of sol guess) = Raise TypeError ↔ guess = [] ∨ sol = [])
  ∧ (all_yes (respond_of sol guess) = Ok true
     ↔ guess ≠ [] ∧ sol ≠ []
       ∧ take (length sol) guess = take (length guess) sol)
  ∧ (length guess = length sol →
     (all_yes (respond_of sol guess) = Ok true ↔ guess = sol ∧ sol ≠ [])).
Proof.
  assert (all_yes (respond_of sol guess) = Ok true
          ↔ guess ≠ [] ∧ sol ≠ []
            ∧ take (length sol) guess = take (length guess) sol) as Hwin.
  { destruct (decide (respond_of sol guess = [])) as [Hnil|Hnil].
    - rewrite Hnil. apply respond_of_nil in Hnil.
      split; [done | intros (? & ? & _); by destruct Hnil].
    - rewrite all_yes_forallb by done. unfold respond_of at 1.
      assert (guess ≠ [] ∧ sol ≠ []) as [Hg Hs].
      { split; intros ->; apply Hnil, respond_of_nil; eauto. }
      split.
      + intros [= H]. apply hints_all_exact in H. done.
      + intros (_ & _ & H). f_equal. by apply hints_all_exact. }
  split; [|split; [exact Hwin|]].
  - destruct (decide (respond_of sol guess = [])) as [Hnil|Hnil].
    + rewrite Hnil. apply respond_of_nil in Hnil. done.
    + rewrite all_yes_forallb by done. split; [done|].
      intros H. by apply respond_of_nil in H.
  - intros Hlen. rewrite Hwin, Hlen, <- Hlen at 1. rewrite !firstn_all.
    split; [by intros (_ & ? & ->) | intros [-> ?]; done].
Qed.

(** X7.  [respond] leaves the session as it was, and the letters of the
    hints it returns spell the guess, cut to the solution's length. *)
Theorem respond_echoes_guess (w : World) (guess : str) :
  ∃ response,
    respond guess w = (w, Ok response)
    ∧ (λ hl : Hint * ascii, hl.2) <$> response
      = take (length (solution (self w))) guess.
Proof.
  exists (respond_of (solution (self w)) guess).
  split; [apply respond_run | apply respond_of_letters].
Qed.

(** ** What the filter keeps, and when it fails *)

Lemma keeps_agrees (i : nat) (hint : Hint) (letter : ascii) (word : str) (b : bool) :
  keeps i hint letter word = Ok b → b = bool_decide (agrees i hint letter word).
Proof.
  destruct hint; simpl.
  - unfold index. destruct (word !! i) as [c|] eqn:E; simpl; [|done].
    intros [= <-]. apply bool_decide_ext. naive_solver.
  - intros [= <-]. apply eq_true_iff_eq.
    by rewrite find_found, bool_decide_eq_true.
  - intros [= <-]. apply eq_true_iff_eq.
    by rewrite find_absent, bool_decide_eq_true.
Qed.

Lemma keeps_raises (i : nat) (hint : Hint) (letter : ascii) (word : str) (e : exn) :
  keeps i hint letter word = Raise e →
  e = IndexError ∧ hint = YES ∧ length word ≤ i.
Proof.
  destruct hint; simpl; [|done..]. unfold index.
  destruct (word !! i) as [c|] eqn:E; simpl; [done|].
  intros [= <-]. by apply lookup_ge_None in E.
Qed.

Lemma comprehension_if_filter {A : Type} (p : A → result bool) (q : A → bool)
    (xs ys : list A) :
  (∀ x b, x ∈ xs → p x = Ok b → b = q x) →
  comprehension_if p xs = Ok ys → ys = filter (λ x, q x = true) xs.
Proof.
  revert ys. induction xs as [|x xs IH]; intros ys Hq; simpl.
  - by intros [= <-].
  - destruct (p x) as [b|e] eqn:Hp; simpl; [|done].
    destruct (comprehension_if p xs) as [zs|e] eqn:Hc; simpl; [|done].
    intros [= <-].
    rewrite (Hq x b (list_elem_of_here _ _) Hp) in *.
    rewrite (IH zs) by (by intros; eauto using list_elem_of_further).
    rewrite filter_cons. by destruct (q x); [rewrite decide_True
                                            | rewrite decide_False].
Qed.

Lemma comprehension_if_raised {A : Type} (p : A → result bool) (xs : list A) (e : exn) :
  comprehension_if p xs = Raise e → ∃ x, x ∈ xs ∧ p x = Raise e.
Proof.
  induction xs as [|x xs IH]; simpl; [done|].
  destruct (p x) as [b|e'] eqn:Hp; simpl.
  - destruct (comprehension_if p xs) as [zs|e'] eqn:Hc; simpl; [done|].
    intros [= ->]. destruct IH as (y & Hy & Hpy); [done|].
    exists y. split; [by apply list_elem_of_further | done].
  - intros [= ->]. exists x. split; [apply list_elem_of_here | done].
Qed.

Lemma filter_fits_nil (i : nat) (bank : list str) :
  filter (λ word, fits i [] word = true) bank = bank.
Proof.
  induction bank as [|word bank IH]; [done|].
  by rewrite filter_cons_True, IH.
Qed.

Lemma filter_fits_cons (i : nat) (hint : Hint) (letter : ascii)
    (rest : Response) (bank : list str) :
  filter (λ word, fits (S i) rest word = true)
         (filter (λ word, bool_decide (agrees i hint letter word) = true) bank)
  = filter (λ word, fits i ((hint, letter) :: rest) word = true) bank.
Proof.
  rewrite list_filter_filter. apply list_filter_iff. intros word. simpl.
  rewrite andb_true_iff. tauto.
Qed.

Lemma fits_agrees (rest : Response) (i : nat) (word : str) :
  fits i rest word = true
  ↔ ∀ k hint letter, rest !! k = Some (hint, letter) →
                     agrees (i + k) hint letter word.
Proof.
  revert i. induction rest as [|[hint letter] rest IH]; intros i; simpl.
  - split; [by intros _ k h l | done].
  - rewrite andb_true_iff, bool_decide_eq_true, IH. split.
    + intros [H0 Hrest] [|k] h l; simpl.
      * intros [= <- <-]. by rewrite Nat.add_0_r.
      * intros Hk. replace (i + S k) with (S i + k) by lia. by apply Hrest.
    + intros Hall. split.
      * specialize (Hall 0 hint letter eq_refl). by rewrite Nat.add_0_r in Hall.
      * intros k h l Hk. replace (S i + k) with (i + S k) by lia. by apply Hall.
Qed.

Lemma step_filter (i : nat) (hint : Hint) (letter : ascii) (bank bank' : list str) :
  comprehension_if (keeps i hint letter) bank = Ok bank' →
  bank' = filter (λ word, bool_decide (agrees i hint letter word) = true) bank.
Proof.
  apply comprehension_if_filter. intros word b _. apply keeps_agrees.
Qed.

Lemma pare_from_filter (rest : Response) (i : nat) (bank : list str) :
  (pare_from i rest bank).2 = Ok tt →
  (pare_from i rest bank).1 = filter (λ word, fits i rest word = true) bank.
Proof.
  revert i bank. induction rest as [|[hint letter] rest IH]; intros i bank.
  - intros _. simpl pare_from. by rewrite filter_fits_nil.
  - simpl pare_from.
    destruct (comprehension_if (keeps i hint letter) bank) as [bank'|e] eqn:E;
      [|done].
    intros Hok. rewrite (IH _ _ Hok), (step_filter _ _ _ _ _ E).
    apply filter_fits_cons.
Qed.

Lemma pare_from_raised (rest : Response) (i : nat) (bank : list str) (e : exn) :
  (pare_from i rest bank).2 = Raise e →
  e = IndexError
  ∧ ∃ k letter word,
      rest !! k = Some (YES, letter)
      ∧ word ∈ (pare_from i rest bank).1
      ∧ length word ≤ i + k
      ∧ (pare_from i rest bank).1
        = filter (λ word, fits i (take k rest) word = true) bank.
Proof.
  revert i bank. induction rest as [|[hint letter] rest IH]; intros i bank;
    [done|].
  simpl pare_from.
  destruct (comprehension_if (keeps i hint letter) bank) as [bank'|e'] eqn:E.
  - intros Hr. destruct (IH _ _ Hr) as (-> & k & l & word & Hk & Hin & Hlen & Hb).
    split; [done|]. exists (S k), l, word.
    split; [done|]. split; [done|]. split; [lia|].
    rewrite Hb, (step_filter _ _ _ _ _ E). simpl take. apply filter_fits_cons.
  - simpl. intros [= ->].
    apply comprehension_if_raised in E as (word & Hin & Hraise).
    apply keeps_raises in Hraise as (-> & -> & Hlen).
    split; [done|]. exists 0, letter, word.
    split; [done|]. split; [done|]. split; [lia|].
    simpl take. by rewrite filter_fits_nil.
Qed.

(** X8.  When [pare_word_bank] returns normally it has changed nothing but
    the word bank, and the new bank is the old one filtered, in order, by
    one condition: the word agrees with every hint, that is, it has the
    letter of each exact hint at that position, contains the letter of each
    present hint and lacks the letter of each absent hint. *)
Theorem pare_word_bank_filter (response : Response) (w : World) :
  (pare_word_bank response w).2 = Ok tt →
  (pare_word_bank response w).1
  = with_bank w (filter (λ word, fits 0 response word = true)
                        (word_bank (self w)))
  ∧ ∀ word,
      fits 0 response word = true
      ↔ ∀ i hint letter, response !! i = Some (hint, letter) →
                         agrees i hint letter word.
Proof.
  rewrite pare_word_bank_run. simpl. intros Hok.
  split; [by rewrite (pare_from_filter _ _ _ Hok)|].
  intros word. apply (fits_agrees response 0 word).
Qed.

Lemma pare_word_bank_filter_witness :
  let w := start (new_game (lit "abbey") 6
                    [lit "table"; lit "abbey"; lit "amber"; lit "belay"]) in
  let response := [(NO, "t"); (MOVE, "a"); (YES, "b"); (NO, "l"); (MOVE, "e")]%char in
  word_bank (self (pare_word_bank response w).1) = [lit "abbey"; lit "amber"].
Proof.
  destruct (pare_word_bank_filter
              [(NO, "t"); (MOVE, "a"); (YES, "b"); (NO, "l"); (MOVE, "e")]%char
              (start (new_game (lit "abbey") 6
                        [lit "table"; lit "abbey"; lit "amber"; lit "belay"])))
    as [Hbank _]; [vm_compute; reflexivity|].
  cbv zeta. rewrite Hbank. vm_compute. reflexivity.
Defined.

(** X9.  The only exception [pare_word_bank] can raise is [IndexError].  It
    is raised at an exact hint whose position lies beyond the end of a word
    still in the bank, and the bank is then left filtered by the hints
    before that position; nothing else in the session has changed. *)
Theorem pare_word_bank_raises (response : Response) (w : World) (e : exn) :
  (pare_word_bank response w).2 = Raise e →
  e = IndexError
  ∧ ∃ i letter word,
      response !! i = Some (YES, letter)
      ∧ word ∈ word_bank (self (pare_word_bank response w).1)
      ∧ length word ≤ i
      ∧ (pare_word_bank response w).1
        = with_bank w (filter (λ word, fits 0 (take i response) word = true)
                              (word_bank (self w))).
Proof.
  rewrite pare_word_bank_run. simpl. intros Hr.
  destruct (pare_from_raised _ _ _ _ Hr)
    as (-> & k & letter & word & Hk & Hin & Hlen & Hb).
  split; [done|]. exists k, letter, word. by rewrite <- Hb.
Qed.

Lemma pare_word_bank_raises_witness :
  let w := start (new_game (lit "abc") 6 [lit "abc"; lit "xbc"; lit "b"]) in
  let response := [(NO, "x"); (YES, "b"); (YES, "c")]%char in
  (pare_word_bank response w).2 = Raise IndexError
  ∧ word_bank (self (pare_word_bank response w).1) = [lit "abc"; lit "b"].
Proof.
  destruct (pare_word_bank_raises
              [(NO, "x"); (YES, "b"); (YES, "c")]%char
              (start (new_game (lit "abc") 6 [lit "abc"; lit "xbc"; lit "b"]))
              IndexError) as (_ & i & letter & word & _ & _ & _ & _);
    [vm_compute; reflexivity|].
  cbv zeta. vm_compute. split; reflexivity.
Defined.

Lemma pare_word_bank_long_words (response : Response) (w : World) :
  (∀ word, word ∈ word_bank (self w) → length response ≤ length word) →
  pare_word_bank response w
  = (with_bank w (filter (λ word, fits 0 response word = true)
                         (word_bank (self w))), Ok tt).
Proof.
  intros Hlen. rewrite pare_word_bank_run.
  assert ((pare_from 0 response (word_bank (self w))).2 = Ok tt) as Hok
    by (by apply pare_from_returns).
  by rewrite (pare_from_filter _ _ _ Hok), Hok.
Qed.

(** X10.  Hint sequences can be applied in either order: when no word of
    the bank is shorter than either sequence, paring with one and then the
    other leaves the same session as paring with the other first. *)
Theorem pare_word_bank_commutes (r1 r2 : Response) (w : World) :
  (∀ word, word ∈ word_bank (self w) →
           length r1 ≤ length word ∧ length r2 ≤ length word) →
  pare_word_bank r2 (pare_word_bank r1 w).1
  = pare_word_bank r1 (pare_word_bank r2 w).1.
Proof.
  intros Hlen.
  rewrite (pare_word_bank_long_words r1 w) by (intros; by apply Hlen).
  rewrite (pare_word_bank_long_words r2 w) by (intros; by apply Hlen).
  simpl. rewrite !pare_word_bank_long_words; simpl.
  - rewrite !with_bank_twice, !list_filter_filter. do 2 f_equal.
    apply list_filter_iff. intros word. tauto.
  - intros word Hword. apply list_elem_of_filter in Hword as [_ Hword].
    by apply Hlen.
  - intros word Hword. apply list_elem_of_filter in Hword as [_ Hword].
    by apply Hlen.
Qed.

Lemma pare_word_bank_commutes_witness :
  let w := start (new_game (lit "abbey") 6
                    [lit "table"; lit "abbey"; lit "amber"; lit "belay"]) in
  let r1 := [(NO, "t"); (MOVE, "a"); (YES, "b"); (NO, "l"); (MOVE, "e")]%char in
  let r2 := [(YES, "a"); (NO, "m"); (YES, "b"); (YES, "e"); (NO, "r")]%char in
  pare_word_bank r2 (pare_word_bank r1 w).1
  = pare_word_bank r1 (pare_word_bank r2 w).1.
Proof.
  apply (pare_word_bank_commutes
           [(NO, "t"); (MOVE, "a"); (YES, "b"); (NO, "l"); (MOVE, "e")]%char
           [(YES, "a"); (NO, "m"); (YES, "b"); (YES, "e"); (NO, "r")]%char
           (start (new_game (lit "abbey") 6
                     [lit "table"; lit "abbey"; lit "amber"; lit "belay"]))).
  simpl. intros word Hword. each_word Hword ltac:(vm_compute; lia).
Defined.

Lemma guess_fits (sol guess : str) :
  fits 0 (respond_of sol guess) guess = true
  ↔ ∀ i c, i < length sol → guess !! i = Some c → c ∈ sol.
Proof.
  rewrite fits_agrees. split.
  - intros Hall i c Hi Hc.
    destruct (lookup_lt_is_Some_2 sol i Hi) as [s Hs].
    pose proof (respond_of_lookup _ _ _ _ _ Hc Hs) as Hr.
    pose proof (evaluate_letter sol c s) as Hl.
    pose proof (evaluate_NO sol c s (list_elem_of_lookup_2 _ _ _ Hs)) as Hno.
    destruct (evaluate sol c s) as [hint letter]. simpl in Hl, Hno.
    subst letter. specialize (Hall i _ _ Hr). simpl in Hall.
    destruct (decide (c ∈ sol)) as [|Hn]; [done|].
    apply Hno in Hn as ->. simpl in Hall.
    destruct Hall. by eapply list_elem_of_lookup_2.
  - intros Hall k hint letter Hk. simpl.
    apply respond_of_lookup_inv in Hk as (s & Hg & Hs & He).
    assert ((evaluate sol letter s).1 = hint) as Hh by (by rewrite He).
    destruct hint; simpl.
    + done.
    + by eapply list_elem_of_lookup_2.
    + apply evaluate_NO in Hh; [|by eapply list_elem_of_lookup_2].
      destruct Hh. apply (Hall k); [by eapply lookup_lt_Some | done].
Qed.

(** X11.  A guess is struck from the bank by its own hints exactly when one
    of its compared letters does not occur in the solution.  A wrong guess
    spelled with letters of the solution only (an anagram, say) stays in the
    bank. *)
Theorem pare_word_bank_guess (w : World) (guess : str) :
  guess ∈ word_bank (self w) →
  (pare_word_bank (respond_of (solution (self w)) guess) w).2 = Ok tt →
  guess ∈ word_bank
            (self (pare_word_bank (respond_of (solution (self w)) guess) w).1)
  ↔ ∀ i c, i < length (solution (self w)) → guess !! i = Some c →
           c ∈ solution (self w).
Proof.
  intros Hin Hok. rewrite pare_word_bank_run in *. simpl in *.
  rewrite (pare_from_filter _ _ _ Hok), list_elem_of_filter, guess_fits.
  tauto.
Qed.

Lemma pare_word_bank_guess_witness :
  let w := start (new_game (lit "least") 6 [lit "least"; lit "slate"]) in
  lit "slate"
  ∈ word_bank (self (pare_word_bank (respond_of (lit "least") (lit "slate")) w).1).
Proof.
  cbv zeta.
  apply (pare_word_bank_guess
           (start (new_game (lit "least") 6 [lit "least"; lit "slate"]))
           (lit "slate")).
  - simpl. apply list_elem_of_further, list_elem_of_here.
  - vm_compute. reflexivity.
  - simpl. intros i c _ Hc. apply list_elem_of_lookup_2 in Hc.
    unfold lit in *. simpl in *.
    each_word Hc ltac:(auto 6 using list_elem_of_here, list_elem_of_further).
Defined.

(** ** What a run of [play] leaves behind *)

(** One iteration from an unsolved session: what it may change and what it
    prints, by the way it ends. *)
Lemma play_body_effect (w : World) :
  solved (self w) = false →
  ∃ w1 r1 rs tail,
    play_body w = (w1, r1)
    ∧ solution (self w1) = solution (self w)
    ∧ guess_limit (self w1) = guess_limit (self w)
    ∧ word_bank (self w1) `sublist_of` word_bank (self w)
    ∧ responses (self w1) = responses (self w) ++ rs
    ∧ stdout w1 = stdout w ++ (Rendered <$> rs) ++ tail
    ∧ match r1 with
      | Ok Break =>
          tail = verdict w1
          ∧ (solved (self w1) = false →
             Z.of_nat (length (responses (self w1))) = guess_limit (self w))
          ∧ ∃ guess,
              guess ∈ word_bank (self w)
              ∧ rs = [respond_of (solution (self w)) guess]
              ∧ all_yes (respond_of (solution (self w)) guess)
                = Ok (solved (self w1))
      | Ok Continue => tail = [] ∧ solved (self w1) = false
      | Raise e => tail = [] ∧ solved (self w1) = false
      end.
Proof.
  intros Hsolved.
  destruct (next_guess_of (word_bank (self w))) as [guess|e] eqn:Hguess.
  2:{ rewrite (play_body_no_guess w e Hguess). exists w, (Raise e), [], [].
      simpl. by rewrite !app_nil_r. }
  pose proof (next_guess_of_member _ _ Hguess) as Hin.
  destruct (all_yes (respond_of (solution (self w)) guess)) as [b|e] eqn:Hall.
  2:{ rewrite (play_body_no_hints w guess e Hguess Hall).
      eexists _, (Raise e), [_], []. simpl. rewrite Hsolved.
      repeat (split; [done|]). done. }
  rewrite (play_body_run w guess b Hguess Hall). cbv zeta.
  destruct b.
  { eexists _, (Ok Break), [_], _. split; [done|]. simpl.
    repeat (split; [done|]). split; [by rewrite <- app_assoc|].
    unfold verdict. simpl. split; [done|]. split; [done|]. eauto. }
  destruct (Z.eqb_spec
              (Z.of_nat (length (responses (self w)
                                   ++ [respond_of (solution (self w)) guess])))
              (guess_limit (self w))) as [Hlast|Hmore].
  { eexists _, (Ok Break), [_], _. split; [done|]. simpl.
    repeat (split; [done|]). split; [by rewrite <- app_assoc|].
    unfold verdict. simpl. split; [done|]. split; [done|]. eauto. }
  rewrite pare_word_bank_run. simpl.
  destruct (pare_from 0 _ _).2 as [[]|e].
  - eexists _, (Ok Continue), [_], []. split; [done|]. simpl.
    repeat (split; [done|]). split; [apply pare_from_sublist|]. done.
  - eexists _, (Raise e), [_], []. split; [done|]. simpl.
    repeat (split; [done|]). split; [apply pare_from_sublist|]. done.
Qed.

Lemma last_app_is_Some {A : Type} (l1 l2 : list A) (x : A) :
  last l2 = Some x → last (l1 ++ l2) = Some x.
Proof. intros H. rewrite last_app. by rewrite H. Qed.

(** A run from an unsolved session, by the way it ends. *)
Lemma play_effect (fuel : nat) (w w' : World) (r : result unit) :
  solved (self w) = false →
  play fuel w = Some (w', r) →
  solution (self w') = solution (self w)
  ∧ guess_limit (self w') = guess_limit (self w)
  ∧ word_bank (self w') `sublist_of` word_bank (self w)
  ∧ ∃ rs,
      responses (self w') = responses (self w) ++ rs
      ∧ stdout w' = stdout w ++ (Rendered <$> rs)
                    ++ match r with Ok _ => verdict w' | Raise _ => [] end
      ∧ match r with
        | Ok _ =>
            (solved (self w') = false →
             Z.of_nat (length (responses (self w'))) = guess_limit (self w))
            ∧ ∃ guess,
                guess ∈ word_bank (self w)
                ∧ last rs = Some (respond_of (solution (self w)) guess)
                ∧ all_yes (respond_of (solution (self w)) guess)
                  = Ok (solved (self w'))
        | Raise _ => solved (self w') = false
        end.
Proof.
  revert w. induction fuel as [|fuel IH]; intros w Hsolved; simpl;
    rewrite Hsolved; [done|].
  destruct (play_body_effect w Hsolved)
    as (w1 & r1 & rs1 & tail & Hbody & Hsol & Hlim & Hbank & Hresp & Hout & Hend).
  rewrite Hbody. destruct r1 as [[]|e].
  - intros [= <- <-]. destruct Hend as (-> & Hlost & guess & Hin & -> & Hall).
    split; [done|]. split; [done|]. split; [done|].
    exists [respond_of (solution (self w)) guess].
    split; [done|]. split; [done|]. split; [done|]. eauto.
  - destruct Hend as [-> Hs1]. intros Hplay.
    destruct (IH w1 Hs1 Hplay)
      as (Hsol' & Hlim' & Hbank' & rs2 & Hresp' & Hout' & Hend').
    split; [congruence|]. split; [congruence|].
    split; [by etrans|]. exists (rs1 ++ rs2).
    split; [by rewrite Hresp', Hresp, app_assoc|].
    split; [rewrite Hout', Hout, app_nil_r, fmap_app; by rewrite <- !app_assoc|].
    destruct r as [u|e]; [|done].
    destruct Hend' as (Hlost & guess & Hin & Hlast & Hall).
    split; [by rewrite <- Hlim|].
    exists guess. split; [by eapply elem_of_sublist|].
    rewrite <- Hsol. split; [by apply last_app_is_Some | done].
  - intros [= <- <-]. destruct Hend as [-> Hs1].
    split; [done|]. split; [done|]. split; [done|].
    exists rs1. split; [done|]. split; [done|]. done.
Qed.

Lemma play_solved (fuel : nat) (w : World) :
  solved (self w) = true → play fuel w = Some (w, Ok tt).
Proof. intros H. destruct fuel; simpl; by rewrite H. Qed.

(** X12.  However a run of [play] ends, it has kept the solution and the
    guess limit, the bank it leaves is a subsequence of the bank it found,
    the responses are the old ones with the new ones appended, and the
    output is the old one followed by one rendering per new response, in
    order, and then, if the run returned normally from an unsolved session,
    by the success or failure line; nothing else is printed. *)
Theorem play_trace (fuel : nat) (w w' : World) (r : result unit) :
  play fuel w = Some (w', r) →
  solution (self w') = solution (self w)
  ∧ guess_limit (self w') = guess_limit (self w)
  ∧ word_bank (self w') `sublist_of` word_bank (self w)
  ∧ ∃ rs,
      responses (self w') = responses (self w) ++ rs
      ∧ stdout w'
        = stdout w ++ (Rendered <$> rs)
          ++ match r with
             | Ok _ => if solved (self w) then [] else verdict w'
             | Raise _ => []
             end.
Proof.
  destruct (solved (self w)) eqn:Hsolved.
  - rewrite (play_solved fuel w Hsolved). intros [= <- <-].
    split; [done|]. split; [done|]. split; [done|].
    exists []. simpl. by rewrite !app_nil_r.
  - intros Hplay.
    destruct (play_effect fuel w w' r Hsolved Hplay)
      as (Hsol & Hlim & Hbank & rs & Hresp & Hout & _).
    split; [done|]. split; [done|]. split; [done|]. exists rs.
    split; [done|]. by destruct r.
Qed.

Lemma play_trace_witness :
  let w := start (new_game (lit "abbey") 6
                    [lit "abbey"; lit "table"; lit "chair"; lit "amber";
                     lit "belay"]) in
  ∃ w' rs,
    play 6 w = Some (w', Ok tt)
    ∧ responses (self w') = responses (self w) ++ rs
    ∧ stdout w' = stdout w ++ (Rendered <$> rs) ++ verdict w'.
Proof.
  cbv zeta. eexists.
  assert (play 6 (start (new_game (lit "abbey") 6
                           [lit "abbey"; lit "table"; lit "chair"; lit "amber";
                            lit "belay"])) = Some (_, Ok tt)) as Hplay
    by (vm_compute; reflexivity).
  destruct (play_trace _ _ _ _ Hplay) as (_ & _ & _ & rs & Hresp & Hout).
  exists rs. split; [exact Hplay|]. split; [exact Hresp | exact Hout].
Defined.

(** X13.  Whenever [play] returns normally, the session it leaves is won or
    lost: won when the solved flag is set, lost otherwise, and lost means
    that exactly [guess_limit] responses are recorded and the failure line
    was printed last. *)
Theorem play_returns_won_or_lost (fuel : nat) (w w' : World) :
  play fuel w = Some (w', Ok tt) →
  (state w' = Won ↔ solved (self w') = true)
  ∧ (state w' = Lost
     ↔ solved (self w') = false
       ∧ last (stdout w') = Some Failure
       ∧ Z.of_nat (length (responses (self w'))) = guess_limit (self w'))
  ∧ (state w' = Won ∨ state w' = Lost).
Proof.
  intros Hplay.
  assert (solved (self w') = true
          ∨ (solved (self w') = false
             ∧ last (stdout w') = Some Failure
             ∧ Z.of_nat (length (responses (self w'))) = guess_limit (self w')))
    as Hend.
  { destruct (solved (self w)) eqn:Hsolved.
    - rewrite (play_solved fuel w Hsolved) in Hplay. injection Hplay as <-.
      by left.
    - destruct (play_effect fuel w w' (Ok tt) Hsolved Hplay)
        as (_ & Hlim & _ & rs & _ & Hout & Hlost & _).
      destruct (solved (self w')) eqn:Hs'; [by left|]. right.
      split; [done|]. split; [|rewrite Hlim; by apply Hlost].
      rewrite Hout. unfold verdict. rewrite Hs', !app_assoc. apply last_snoc. }
  unfold state.
  destruct Hend as [Hs|(Hs & Hlast & Hlen)]; rewrite Hs.
  - split; [done|]. split; [|by left]. split; [done | by intros [? _]].
  - rewrite Hlast, (proj2 (Z.eqb_eq _ _) Hlen).
    split; [done|]. split; [|by right]. done.
Qed.

Lemma play_returns_won_or_lost_witness :
  let w := start (new_game (lit "abbey") 1 [lit "amber"; lit "abbey"]) in
  ∃ w', play 6 w = Some (w', Ok tt) ∧ (state w' = Won ∨ state w' = Lost).
Proof.
  cbv zeta. eexists.
  assert (play 6 (start (new_game (lit "abbey") 1 [lit "amber"; lit "abbey"]))
          = Some (_, Ok tt)) as Hplay by (vm_compute; reflexivity).
  split; [exact Hplay|].
  exact (proj2 (proj2 (play_returns_won_or_lost _ _ _ Hplay))).
Defined.

Lemma all_yes_true_agree (sol guess : str) :
  all_yes (respond_of sol guess) = Ok true →
  guess ≠ [] ∧ sol ≠ [] ∧ take (length sol) guess = take (length guess) sol.
Proof.
  intros Hall.
  destruct (decide (respond_of sol guess = [])) as [Hn|Hn];
    [by rewrite Hn in Hall|].
  rewrite all_yes_forallb in Hall by done. injection Hall as Hall.
  apply hints_all_exact in Hall.
  split; [|split; [|done]]; intros E; apply Hn, respond_of_nil; eauto.
Qed.

Lemma agree_same_length (sol guess : str) :
  length guess = length sol →
  take (length sol) guess = take (length guess) sol → guess = sol.
Proof. intros Hlen. by rewrite Hlen, <- Hlen, !firstn_all at 1. Qed.

(** How an unsolved session gets solved. *)
Lemma play_solved_by_guess (fuel : nat) (w w' : World) (r : result unit) :
  solved (self w) = false →
  play fuel w = Some (w', r) →
  solved (self w') = true →
  r = Ok tt
  ∧ ∃ guess,
      guess ∈ word_bank (self w)
      ∧ last (responses (self w')) = Some (respond_of (solution (self w)) guess)
      ∧ all_yes (respond_of (solution (self w)) guess) = Ok true.
Proof.
  intros Hsolved Hplay Hwon.
  destruct (play_effect fuel w w' r Hsolved Hplay)
    as (_ & _ & _ & rs & Hresp & _ & Hend).
  destruct r as [[]|e]; [|congruence]. split; [done|].
  destruct Hend as (_ & guess & Hin & Hlast & Hall).
  rewrite Hwon in Hall. exists guess. split; [done|].
  split; [rewrite Hresp; by apply last_app_is_Some | done].
Qed.

(** X14.  A run from an unsolved session can only end solved by returning
    normally after a guess, taken from the bank it started with, that agrees
    with the solution on the positions both have; the last response
    recorded is that guess's.  When the guess has the solution's length it
    is the solution: a bank of words of the solution's length that lacks the
    solution is never won. *)
Theorem play_won (fuel : nat) (w w' : World) (r : result unit) :
  solved (self w) = false →
  play fuel w = Some (w', r) →
  solved (self w') = true →
  r = Ok tt
  ∧ ∃ guess,
      guess ∈ word_bank (self w)
      ∧ last (responses (self w')) = Some (respond_of (solution (self w)) guess)
      ∧ guess ≠ []
      ∧ take (length (solution (self w))) guess
        = take (length guess) (solution (self w))
      ∧ (length guess = length (solution (self w)) → guess = solution (self w)).
Proof.
  intros Hsolved Hplay Hwon.
  destruct (play_solved_by_guess fuel w w' r Hsolved Hplay Hwon)
    as (Hr & guess & Hin & Hlast & Hall).
  apply all_yes_true_agree in Hall as (Hg & _ & Htake).
  split; [done|]. exists guess. split; [done|]. split; [done|].
  split; [done|]. split; [done|].
  intros Hlen. by apply agree_same_length.
Qed.

Lemma play_won_witness :
  let w := start (new_game (lit "abbey") 6
                    [lit "abbey"; lit "table"; lit "chair"; lit "amber";
                     lit "belay"]) in
  ∃ w' guess,
    play 6 w = Some (w', Ok tt)
    ∧ guess ∈ word_bank (self w)
    ∧ last (responses (self w')) = Some (respond_of (solution (self w)) guess)
    ∧ (length guess = length (solution (self w)) → guess = solution (self w)).
Proof.
  cbv zeta. eexists.
  assert (play 6 (start (new_game (lit "abbey") 6
                           [lit "abbey"; lit "table"; lit "chair"; lit "amber";
                            lit "belay"])) = Some (_, Ok tt)) as Hplay
    by (vm_compute; reflexivity).
  destruct (play_won 6
              (start (new_game (lit "abbey") 6
                        [lit "abbey"; lit "table"; lit "chair"; lit "amber";
                         lit "belay"])) _ _ eq_refl Hplay eq_refl)
    as (_ & guess & Hin & Hlast & _ & _ & Heq).
  exists guess. split; [exact Hplay|]. split; [exact Hin|].
  split; [exact Hlast | exact Heq].
Defined.



(** ** The dictionary and the default session *)

Lemma is_lower_not_space (c : ascii) : is_lower c = true → isspace c = false.
Proof.
  unfold is_lower, isspace. intros H.
  apply andb_true_iff in H as [H1 H2]. apply Nat.leb_le in H1, H2.
  cbv zeta. repeat apply orb_false_intro.
  - apply andb_false_iff. right. apply Nat.leb_gt. lia.
  - apply andb_false_iff. right. apply Nat.leb_gt. lia.
  - apply Nat.eqb_neq. lia.
  - apply Nat.eqb_neq. lia.
Qed.

Lemma lstrip_head (s : str) :
  (∀ c, head s = Some c → isspace c = false) → lstrip s = s.
Proof.
  destruct s as [|c s]; [done|]. intros H. simpl.
  by rewrite (H c eq_refl).
Qed.

Lemma strip_word (word : str) :
  word ≠ [] → forallb is_lower word = true →
  strip word = word ∧ strip (word ++ [newline]) = word.
Proof.
  intros Hne Hlow.
  assert (∀ c, c ∈ word → isspace c = false) as Hns.
  { intros c Hc. apply is_lower_not_space.
    rewrite forallb_forall in Hlow. apply Hlow. by apply list_elem_of_In. }
  assert (lstrip word = word) as Hl.
  { apply lstrip_head. intros c Hc. apply Hns.
    rewrite head_lookup in Hc. by eapply list_elem_of_lookup_2. }
  assert (lstrip (reverse word) = reverse word) as Hr.
  { apply lstrip_head. intros c Hc. apply Hns.
    rewrite head_reverse in Hc. by apply last_Some_elem_of. }
  unfold strip. split.
  - by rewrite Hl, Hr, reverse_involutive.
  - assert (lstrip (word ++ [newline]) = word ++ [newline]) as Hl'.
    { apply lstrip_head. intros c Hc. apply Hns.
      destruct word as [|c' word]; [done|]. injection Hc as <-.
      apply list_elem_of_here. }
    rewrite Hl', reverse_snoc. simpl lstrip. replace (isspace newline) with true
      by reflexivity.
    by rewrite Hr, reverse_involutive.
Qed.

Lemma matches_word_cases (w : str) :
  matches_word w = true
  ↔ ∃ word, length word = 5 ∧ forallb is_lower word = true
            ∧ (w = word ∨ w = word ++ [newline]).
Proof.
  unfold matches_word.
  rewrite !andb_true_iff, orb_true_iff, !bool_decide_eq_true. split.
  - intros [[Hlen Hlow] Hrest]. exists (take 5 w).
    split; [done|]. split; [done|].
    rewrite <- (take_drop 5 w) at 1 3.
    destruct Hrest as [-> | ->]; [left; by rewrite app_nil_r | by right].
  - intros (word & Hlen & Hlow & [-> | ->]).
    + rewrite take_ge, drop_ge by lia. by eauto.
    + rewrite take_app_length', drop_app_length' by done. by eauto.
Qed.

Lemma system_word_list_sound (lines : list str) (word : str) :
  word ∈ system_word_list lines →
  length word = 5
  ∧ forallb is_lower word = true
  ∧ (word ∈ lines ∨ word ++ [newline] ∈ lines).
Proof.
  unfold system_word_list. intros Hin.
  apply list_elem_of_fmap in Hin as (w & -> & Hin).
  apply list_elem_of_filter in Hin as [Hm Hin].
  apply matches_word_cases in Hm as (word & Hlen & Hlow & Hw).
  assert (word ≠ []) as Hne by (by intros ->).
  destruct (strip_word word Hne Hlow) as [Hs1 Hs2].
  destruct Hw as [-> | ->]; [rewrite Hs1 | rewrite Hs2]; eauto.
Qed.

Lemma system_word_list_complete (lines : list str) (word : str) :
  length word = 5 →
  forallb is_lower word = true →
  word ∈ lines ∨ word ++ [newline] ∈ lines →
  word ∈ system_word_list lines.
Proof.
  intros Hlen Hlow Hin. unfold system_word_list.
  assert (word ≠ []) as Hne by (by intros ->).
  destruct (strip_word word Hne Hlow) as [Hs1 Hs2].
  apply list_elem_of_fmap. destruct Hin as [Hin|Hin].
  - exists word. split; [done|]. apply list_elem_of_filter. split; [|done].
    apply matches_word_cases. exists word. eauto.
  - exists (word ++ [newline]). split; [done|].
    apply list_elem_of_filter. split; [|done].
    apply matches_word_cases. exists word. eauto.
Qed.

(** X16.  The dictionary words that [system_word_list] returns are exactly
    the words of five lowercase letters that stand on a line of their own,
    with or without the final newline; the newline is stripped.  A line with
    a capital, an apostrophe, a carriage return or another length gives no
    word. *)
Theorem system_word_list_words (lines : list str) (word : str) :
  word ∈ system_word_list lines
  ↔ length word = 5
    ∧ forallb is_lower word = true
    ∧ (word ∈ lines ∨ word ++ [newline] ∈ lines).
Proof.
  split.
  - apply system_word_list_sound.
  - intros (Hlen & Hlow & Hin). by apply system_word_list_complete.
Qed.

Lemma system_word_list_length (lines : list str) (word : str) :
  word ∈ system_word_list lines → length word = 5.
Proof. intros H. by apply system_word_list_sound in H as (? & _). Qed.

Example system_word_list_example :
  system_word_list
    [lit "abbey" ++ [newline]; lit "Abbey" ++ [newline];
     lit "don't" ++ [newline]; lit "chairs" ++ [newline];
     lit "amber" ++ ["013"%char; newline]; lit "table"]
  = [lit "abbey"; lit "table"].
Proof. vm_compute. reflexivity. Qed.

Lemma default_game_found (sol : str) (lines : list str) :
  sol ∈ system_word_list lines →
  ∃ w',
    (∀ fuel, 6 ≤ fuel →
             play fuel (start (default_game sol lines)) = Some (w', Ok tt))
    ∧ (state w' = Won ∨ state w' = Lost)
    ∧ 1 ≤ length (responses (self w')) ≤ 6.
Proof.
  intros Hin. pose proof (system_word_list_length _ _ Hin) as Hlen.
  destruct (play_from 6 (start (default_game sol lines)))
    as (w' & Hplay & Hstate & _ & Hlt & Hbound).
  - split; [done|]. simpl. split; [by intros ->|]. split; [done|].
    intros word Hword. rewrite (system_word_list_length _ _ Hword). lia.
  - lia.
  - simpl. lia.
  - exists w'. split; [done|]. split; [done|]. simpl in *. lia.
Qed.

Lemma default_game_empty (sol : str) (lines : list str) (fuel : nat) :
  system_word_list lines = [] →
  play (S fuel) (start (default_game sol lines))
  = Some (start (default_game sol lines), Raise TypeError).
Proof.
  intros Hnil. simpl. rewrite (play_body_no_guess _ TypeError); [done|].
  simpl. by rewrite Hnil.
Qed.

Lemma default_game_missing (sol : str) (lines : list str) :
  length sol = 5 →
  sol ∉ system_word_list lines →
  ∃ w' r,
    (∀ fuel, 6 ≤ fuel →
             play fuel (start (default_game sol lines)) = Some (w', r))
    ∧ solved (self w') = false
    ∧ length (responses (self w')) ≤ 6.
Proof.
  intros Hlen Hnot.
  destruct (play_bounded 6 (start (default_game sol lines)))
    as (w' & r & Hplay & _ & Hbound); [lia | simpl; lia |].
  exists w', r. split; [done|]. split; [|simpl in Hbound; lia].
  destruct (solved (self w')) eqn:Hs; [|done].
  destruct (play_solved_by_guess 6 (start (default_game sol lines)) w' r
              eq_refl (Hplay 6 (Nat.le_refl _)) Hs)
    as (_ & guess & Hin & _ & Hall).
  simpl in Hin, Hall. apply all_yes_true_agree in Hall as (_ & _ & Htake).
  destruct Hnot. rewrite <- (agree_same_length sol guess); [done | | done].
  by rewrite (system_word_list_length _ _ Hin).
Qed.

(** X17.  A session built with the defaults, [Game(sol)], over any
    dictionary.  If the solution is one of the dictionary's five-letter
    words, [play] returns normally after one to six rounds with the session
    won or lost.  If the dictionary has no such word at all, the first call
    of [next_guess] raises [TypeError] and nothing is printed.  If the
    solution has five letters but is not among them, the run ends within six
    rounds and the session is not solved. *)
Theorem default_game_play (sol : str) (lines : list str) :
  (sol ∈ system_word_list lines →
   ∃ w',
     (∀ fuel, 6 ≤ fuel →
              play fuel (start (default_game sol lines)) = Some (w', Ok tt))
     ∧ (state w' = Won ∨ state w' = Lost)
     ∧ 1 ≤ length (responses (self w')) ≤ 6)
  ∧ (system_word_list lines = [] →
     ∀ fuel, play (S fuel) (start (default_game sol lines))
             = Some (start (default_game sol lines), Raise TypeError))
  ∧ (length sol = 5 → sol ∉ system_word_list lines →
     ∃ w' r,
       (∀ fuel, 6 ≤ fuel →
                play fuel (start (default_game sol lines)) = Some (w', r))
       ∧ solved (self w') = false
       ∧ length (responses (self w')) ≤ 6).
Proof.
  split; [apply default_game_found|]. split; [|apply default_game_missing].
  intros Hnil fuel. by apply default_game_empty.
Qed.

(** X18.  [main()], which plays "abbey" with the defaults: when the
    dictionary has the line "abbey" (with or without its newline), [main]
    returns normally after one to six rounds, won or lost; when the
    dictionary has no line of five lowercase letters, [main] ends on a
    [TypeError] before anything is printed. *)
Theorem main_outcomes (lines : list str) :
  (lit "abbey" ∈ lines ∨ lit "abbey" ++ [newline] ∈ lines →
   ∃ w',
     (∀ fuel, 6 ≤ fuel → main fuel lines = Some (w', Ok tt))
     ∧ (state w' = Won ∨ state w' = Lost)
     ∧ 1 ≤ length (responses (self w')) ≤ 6)
  ∧ ((∀ line, line ∈ lines → matches_word line = false) →
     ∀ fuel, ∃ w',
       main (S fuel) lines = Some (w', Raise TypeError) ∧ stdout w' = []).
Proof.
  unfold main. split.
  - intros Hin. apply default_game_found, system_word_list_complete;
      [done | by vm_compute | done].
  - intros Hnone fuel. exists (start (default_game (lit "abbey") lines)).
    split; [|reflexivity]. apply default_game_empty. unfold system_word_list.
    destruct (filter _ lines) as [|line rest] eqn:E; [done|].
    assert (line ∈ filter (λ w : str, matches_word w = true) lines) as Hl
      by (rewrite E; apply list_elem_of_here).
    apply list_elem_of_filter in Hl as [Hm Hl]. by rewrite (Hnone line Hl) in Hm.
Qed.
